(** * bibbias: gender analytics over a BibTeX file

    A shallow embedding of [src/bias.py] and the properties of its
    resolution pipeline: record extraction by regular expressions, name
    normalisation, the file-backed name cache, the remote lookup, and the
    nine-category report with its ratios.

    Python [str] values are modelled as [string], each character being a
    code point below 256; the character classes [\s], [\w] and [str.lower]
    are those of Python 3 on that range. *)

From Stdlib Require Import ZArith NArith Ascii Floats Uint63.
From stdpp Require Import gmap strings list sorting pretty.

(** ** Characters *)

Module Char.

Definition code (c : ascii) : N := N_of_ascii c.

Definition between (lo hi : N) (c : ascii) : bool :=
  ((lo <=? code c) && (code c <=? hi))%N.

(** [str.isspace], which is also the class [\s] of [re] on [str]. *)
Definition isspace (c : ascii) : bool :=
  between 9 13 c || between 28 32 c || between 133 133 c || between 160 160 c.

(** The class [\w] of [re] on [str]: alphanumeric, or the underscore. *)
Definition isword (c : ascii) : bool :=
  between 48 57 c || between 65 90 c || between 95 95 c || between 97 122 c
  || between 170 170 c || between 178 179 c || between 181 181 c
  || between 185 186 c || between 188 190 c || between 192 214 c
  || between 216 246 c || between 248 255 c.

(** [str.lower] on one character. *)
Definition lower (c : ascii) : ascii :=
  if between 65 90 c || between 192 214 c || between 216 222 c
  then ascii_of_N (code c + 32)%N else c.

Definition newline : ascii := "010"%char.

(** [.] under [re.DOTALL], and without it. *)
Definition any (c : ascii) : bool := true.
Definition not_newline (c : ascii) : bool := negb (Ascii.eqb c newline).

End Char.

(** ** The methods of [str] the program calls *)

Module Str.

Fixpoint lstrip (s : string) : string :=
  match s with
  | String c s' => if Char.isspace c then lstrip s' else s
  | EmptyString => EmptyString
  end.

Fixpoint rstrip (s : string) : string :=
  match s with
  | String c s' =>
      match rstrip s' with
      | EmptyString => if Char.isspace c then EmptyString else String c EmptyString
      | t => String c t
      end
  | EmptyString => EmptyString
  end.

(** [s.strip()] *)
Definition strip (s : string) : string := rstrip (lstrip s).

(** [s.lower()] *)
Fixpoint lower (s : string) : string :=
  match s with
  | String c s' => String (Char.lower c) (lower s')
  | EmptyString => EmptyString
  end.

(** [s.replace(a, b)] for one-character [a] and [b]. *)
Fixpoint replace (a b : ascii) (s : string) : string :=
  match s with
  | String c s' => String (if Ascii.eqb c a then b else c) (replace a b s')
  | EmptyString => EmptyString
  end.

(** [s.split(sep)] for a non-empty [sep]: the occurrences of [sep] are
    found from the left and do not overlap; [skip] counts the characters
    of an occurrence that are still to be passed over. *)
Fixpoint split_go (sep : string) (skip : nat) (s : string) : list string :=
  match s with
  | String c s' =>
      match skip with
      | S k => split_go sep k s'
      | O =>
          if String.prefix sep s
          then EmptyString :: split_go sep (String.length sep - 1) s'
          else match split_go sep 0 s' with
               | h :: t => String c h :: t
               | [] => [String c EmptyString]
               end
      end
  | EmptyString => [EmptyString]
  end.

Definition split (sep s : string) : list string := split_go sep 0 s.

(** [l[0]] and [l[-1]] on the result of a [split], which is never empty. *)
Definition first (l : list string) : string := hd EmptyString l.
Definition final (l : list string) : string := List.last l EmptyString.

End Str.

(** ** Regular expressions

    The three patterns of the program are sequences of one-character
    classes, each taken once or under a quantifier, with at most one group.
    The matcher backtracks in the order of [re]: a greedy quantifier tries
    the longest repetition first, a lazy one the shortest. *)

Module Re.

Inductive quant := Once | Star | Plus | LazyStar.

Record piece := Piece { pset : ascii → bool; pquant : quant; pgroup : bool }.

Definition pattern := list piece.

Section Quantifiers.
Context {R : Type} (p : ascii → bool) (k : string → option R).

Fixpoint greedy (s : string) : option (string * R) :=
  match s with
  | String c s' =>
      if p c then
        match greedy s' with
        | Some (t, r) => Some (String c t, r)
        | None => pair EmptyString <$> k s
        end
      else pair EmptyString <$> k s
  | EmptyString => pair EmptyString <$> k s
  end.

Fixpoint lazy (s : string) : option (string * R) :=
  match k s with
  | Some r => Some (EmptyString, r)
  | None =>
      match s with
      | String c s' =>
          if p c then
            match lazy s' with
            | Some (t, r) => Some (String c t, r)
            | None => None
            end
          else None
      | EmptyString => None
      end
  end.

Definition once (s : string) : option (string * R) :=
  match s with
  | String c s' => if p c then pair (String c EmptyString) <$> k s' else None
  | EmptyString => None
  end.

Definition plus (s : string) : option (string * R) :=
  match s with
  | String c s' =>
      if p c then
        match greedy s' with
        | Some (t, r) => Some (String c t, r)
        | None => None
        end
      else None
  | EmptyString => None
  end.

Definition repeat (q : quant) : string → option (string * R) :=
  match q with
  | Once => once
  | Star => greedy
  | Plus => plus
  | LazyStar => lazy
  end.
End Quantifiers.

(** A match of the pattern at the start of [s]: the text of group 1
    (empty when the pattern has no group) and the input left over. *)
Fixpoint match_here (ps : pattern) (s : string) : option (string * string) :=
  match ps with
  | [] => Some (EmptyString, s)
  | p :: ps' =>
      match repeat (pset p) (match_here ps') (pquant p) s with
      | Some (t, (g, rest)) => Some (if pgroup p then t else g, rest)
      | None => None
      end
  end.

(** Number of characters a match at the start of [s] consumed. *)
Definition consumed (s rest : string) : nat :=
  (String.length s - String.length rest)%nat.

(** [re.findall] for a pattern with one group: the scan moves through
    the text from the left, restarts after each match, and collects the
    text of the group. *)
Fixpoint findall_go (ps : pattern) (skip : nat) (s : string) : list string :=
  match s with
  | String c s' =>
      match skip with
      | S k => findall_go ps k s'
      | O =>
          match match_here ps s with
          | Some (g, rest) => g :: findall_go ps (consumed s rest - 1) s'
          | None => findall_go ps 0 s'
          end
      end
  | EmptyString =>
      match skip, match_here ps EmptyString with
      | O, Some (g, _) => [g]
      | _, _ => []
      end
  end.

Definition findall (ps : pattern) (s : string) : list string := findall_go ps 0 s.

(** [pattern.sub("", s)]: the text with every match removed. *)
Fixpoint sub_go (ps : pattern) (skip : nat) (s : string) : string :=
  match s with
  | String c s' =>
      match skip with
      | S k => sub_go ps k s'
      | O =>
          match match_here ps s with
          | Some (_, rest) =>
              match consumed s rest with
              | S k => sub_go ps k s'
              | O => String c (sub_go ps 0 s')
              end
          | None => String c (sub_go ps 0 s')
          end
      end
  | EmptyString => EmptyString
  end.

Definition sub_empty (ps : pattern) (s : string) : string := sub_go ps 0 s.

(** Builders for the pieces. *)
Definition lit (c : ascii) : piece := Piece (Ascii.eqb c) Once false.
Definition one (p : ascii → bool) : piece := Piece p Once false.
Definition star (p : ascii → bool) : piece := Piece p Star false.
Definition some (p : ascii → bool) : piece := Piece p Plus false.
Definition group_lazy (p : ascii → bool) : piece := Piece p LazyStar true.

Fixpoint lits (s : string) : pattern :=
  match s with
  | String c s' => lit c :: lits s'
  | EmptyString => []
  end.

End Re.

(** [r"author\s=\s+\{(.*?)\}"] with [re.DOTALL] *)
Definition author_re : Re.pattern :=
  Re.lits "author" ++
  [Re.one Char.isspace; Re.lit "="; Re.some Char.isspace; Re.lit "{";
   Re.group_lazy Char.any; Re.lit "}"].

(** [r"@\w+\{(.*?),"] *)
Definition bib_id_re : Re.pattern :=
  [Re.lit "@"; Re.some Char.isword; Re.lit "{";
   Re.group_lazy Char.not_newline; Re.lit ","].

(** [strip_initial = re.compile(r"\s*\w\.\s*")] *)
Definition strip_initial : Re.pattern :=
  [Re.star Char.isspace; Re.one Char.isword; Re.lit "."; Re.star Char.isspace].

(** ** Values of the program *)

(** An insertion-ordered [dict]: assigning to a key that is present keeps
    its position and replaces its value. *)
Module Dict.

Section Dict.
Context {V : Type}.

Fixpoint set (k : string) (v : V) (d : list (string * V)) : list (string * V) :=
  match d with
  | [] => [(k, v)]
  | (k', v') :: d' =>
      if decide (k = k') then (k, v) :: d' else (k', v') :: set k v d'
  end.

Fixpoint get (k : string) (d : list (string * V)) : option V :=
  match d with
  | [] => None
  | (k', v') :: d' => if decide (k = k') then Some v' else get k d'
  end.

Definition keys (d : list (string * V)) : list string := d.*1.
Definition values (d : list (string * V)) : list V := d.*2.

End Dict.

End Dict.

(** A gender label as [find_gender] stores it: the value the cache holds
    for the name, or [None]. *)
Definition label : Type := option string.

(** [(name, label)] *)
Definition author : Type := string * label.

(** The value of [data[bid]]: first author, last author. *)
Definition resolved : Type := author * author.

Inductive exn :=
| JSONDecodeError
| KeyError (k : string).

(** The file [names.cache]: absent, holding text that is not JSON, on
    which [json.loads] raises, or holding a JSON object of strings. Files
    with other content (JSON that is not an object, objects with values
    that are not strings) are not in the model. Serialisation itself
    ([json.dumps], [json.loads]) is not modelled. *)
Inductive file :=
| Absent
| NotJSON
| Holds (c : gmap string string).

(** What the program reads and writes beside its arguments. *)
Record world := World {
  names_cache : file;
  GENDER_API_KEY : option string;
  stdout : list string
}.

(** The answer to one [requests.get]: [q.ok], and [q.json()] with the two
    fields the program reads ([None] when the body is not JSON, or lacks
    the field). *)
Record body := Body { accuracy : option Z; gender : option string }.
Record response := Response { ok : bool; json : option body }.

(** ** Computations that read and write the world, or raise *)

Inductive outcome (A : Type) :=
| Return (a : A) (w : world)
| Raise (e : exn) (w : world).
Arguments Return {A} a w.
Arguments Raise {A} e w.

Definition M (A : Type) : Type := world → outcome A.

Definition ret {A} (a : A) : M A := λ w, Return a w.

Definition raise {A} (e : exn) : M A := λ w, Raise e w.

Definition bind {A B} (m : M A) (k : A → M B) : M B :=
  λ w, match m w with
       | Return a w' => k a w'
       | Raise e w' => Raise e w'
       end.

Notation "'do' x <- m ; k" := (bind m (λ x, k))
  (at level 10, x pattern, m at level 100, k at level 200).

Definition print (line : string) : M unit :=
  λ w, Return tt (World (names_cache w) (GENDER_API_KEY w) (stdout w ++ [line])).

Definition getenv_GENDER_API_KEY : M (option string) :=
  λ w, Return (GENDER_API_KEY w) w.

(** [(BIBBIAS_CACHE_PATH / "names.cache").exists()] *)
Definition cache_exists : M bool :=
  λ w, Return (match names_cache w with Absent => false | _ => true end) w.

(** [json.loads((BIBBIAS_CACHE_PATH / "names.cache").read_text())] *)
Definition read_cache : M (gmap string string) :=
  λ w, match names_cache w with
       | Holds c => Return c w
       | _ => Raise JSONDecodeError w
       end.

(** [(BIBBIAS_CACHE_PATH / "names.cache").write_text(json.dumps(cached, indent=2))] *)
Definition write_cache (cached : gmap string string) : M unit :=
  λ w, Return tt (World (Holds cached) (GENDER_API_KEY w) (stdout w)).

(** ** [find_gender] *)

(** The expression the loop applies to the first and to the last author:
    [strip_initial.sub("", a.strip().split(",")[-1].strip().lower())]. *)
Definition normalize (a : string) : string :=
  Re.sub_empty strip_initial
    (Str.lower (Str.strip (Str.final (Str.split "," (Str.strip a))))).

(** One pass of the loop body: the value stored in [data[bid]]. *)
Definition resolve (cached : gmap string string) (authors : string) : resolved :=
  let authlst := Str.split " and" authors in
  let first := normalize (Str.first authlst) in
  let last := normalize (Str.final authlst) in
  ((first, cached !! first), (last, cached !! last)).

(** [if n is None: missed.add(f)] *)
Definition note_missed (missed : gset string) (a : author) : gset string :=
  match a.2 with
  | None => {[a.1]} ∪ missed
  | Some _ => missed
  end.

Definition find_gender_step (cached : gmap string string)
    (st : list (string * resolved) * gset string) (rec : string * string)
    : list (string * resolved) * gset string :=
  let r := resolve cached rec.2 in
  (Dict.set rec.1 r st.1, note_missed (note_missed st.2 r.1) r.2).

Definition find_gender_loop (cached : gmap string string)
    (records : list (string * string))
    : list (string * resolved) * gset string :=
  fold_left (find_gender_step cached) records ([], ∅).

(** The records the loop runs over: [zip(bib_id, author_lists)]. *)
Definition records (bibstr : string) : list (string * string) :=
  let matches := Re.findall author_re bibstr in
  let author_lists := Str.replace Char.newline " " <$> matches in
  let bib_id := Re.findall bib_id_re bibstr in
  zip bib_id author_lists.

Definition find_gender (bibstr : string) (cached : option (gmap string string))
    : M (list (string * resolved) * gset string) :=
  do cached <-
    match cached with
    | None =>
        do present <- cache_exists;
        if (present : bool) then do c <- read_cache; ret (Some c) else ret None
    | Some c => ret (Some c)
    end;
  let cached := default ∅ cached in
  ret (find_gender_loop cached (records bibstr)).

(** ** [query_names] *)

Section Lookup.

(** The remote service: the response to [requests.get(url)]. *)
Variable requests_get : string → response.

(** [gender_api_query(name=n)] for a key without braces: the key is
    spliced into the template that [str.format] then fills, so a key with
    "{" or "}" is read as part of the template. The properties that speak of
    the address asked carry the hypothesis that the key has none. *)
Definition gender_api_query (api_key n : string) : string :=
  "https://gender-api.com/get?name=" +:+ n +:+ "&key=" +:+ api_key.

(** [q.json()] *)
Definition json_of (q : response) : M body :=
  match json q with
  | Some b => ret b
  | None => raise JSONDecodeError
  end.

(** [b[k]] *)
Definition field {A} (k : string) (v : option A) : M A :=
  match v with
  | Some a => ret a
  | None => raise (KeyError k)
  end.

(** The loop [for n in misses]. *)
Fixpoint query_loop (api_key : string) (misses : list string)
    (cached : gmap string string) : M (gmap string string) :=
  match misses with
  | [] => ret cached
  | n :: misses' =>
      do _ <- print ("Querying for " +:+ n);
      let q := requests_get (gender_api_query api_key n) in
      if ok q then
        do b <- json_of q;
        do a <- field "accuracy" (accuracy b);
        if (60 <=? a)%Z then
          do g <- field "gender" (gender b);
          query_loop api_key misses'
            (<[n := if decide (g = "female") then "F" else "M"]> cached)
        else query_loop api_key misses' cached
      else query_loop api_key misses' cached
  end.

(** [sorted(set(nameset) - set(cached.keys()))] *)
Definition misses_of (nameset : gset string) (cached : gmap string string)
    : list string :=
  merge_sort String.le (elements (nameset ∖ dom cached)).

Definition no_key_message (misses : list string) : string :=
  "No Gender API key - " +:+ pretty (length misses) +:+
  " names could not be mapped.".

Definition query_names (nameset : gset string) : M (gmap string string) :=
  do present <- cache_exists;
  do cached <- (if (present : bool) then read_cache else ret ∅);
  let misses := misses_of nameset cached in
  match misses with
  | [] => ret cached
  | _ :: _ =>
      do api_key <- getenv_GENDER_API_KEY;
      match api_key with
      | None =>
          do _ <- print (no_key_message misses);
          ret cached
      | Some api_key =>
          do cached <- query_loop api_key misses cached;
          do _ <- write_cache cached;
          ret cached
      end
  end.

End Lookup.

(** ** [report_gender] and [compute_gender_stats] *)

(** [product(("M", "F", "None"), repeat=2)], each pair joined. *)
Definition categories : list string :=
  (λ c : string * string, c.1 +:+ c.2) <$>
    list_prod ["M"; "F"; "None"] ["M"; "F"; "None"].

(** [f"{l}"] for a label. *)
Definition format_label (l : label) : string :=
  match l with
  | Some g => g
  | None => "None"
  end.

(** [retval[k] += 1], which raises [KeyError] on a key that is absent. *)
Fixpoint increment (k : string) (retval : list (string * Z))
    : option (list (string * Z)) :=
  match retval with
  | [] => None
  | (k', n) :: retval' =>
      if decide (k = k') then Some ((k', (n + 1)%Z) :: retval')
      else cons (k', n) <$> increment k retval'
  end.

Definition category_of (r : resolved) : string :=
  format_label r.1.2 +:+ format_label r.2.2.

Fixpoint tally (values : list resolved) (retval : list (string * Z))
    : exn + list (string * Z) :=
  match values with
  | [] => inr retval
  | r :: values' =>
      match increment (category_of r) retval with
      | Some retval' => tally values' retval'
      | None => inl (KeyError (category_of r))
      end
  end.

Definition report_gender (data : list (string * resolved))
    : exn + list (string * Z) :=
  tally (Dict.values data) ((λ c, (c, 0%Z)) <$> categories).

(** A count as the [float64] the division works on, for the non-negative
    [int64] values below [2^63]; exact below [2^53]. *)
Definition to_float (n : Z) : float := PrimFloat.of_uint63 (Uint63.of_Z n).

(** [df.sum(axis=1).iloc[0]], for counts whose sum is below [2^63], where
    the [int64] sum does not wrap. *)
Definition total (gender_report : list (string * Z)) : Z :=
  foldr Z.add 0%Z (Dict.values gender_report).

(** [compute_gender_stats(df)] on the one-row frame of a report: the rows
    [(Category, Ratio)]. *)
Definition compute_gender_stats (gender_report : list (string * Z))
    : list (string * float) :=
  let total := total gender_report in
  (λ kc : string * Z, (kc.1, PrimFloat.div (to_float kc.2) (to_float total)))
    <$> gender_report.

(** ** [create_author_gender_df] *)

(** The dictionary of five lists the function hands to [pd.DataFrame],
    one list per column. What the frame stores for them (for a label
    [None] among strings) is the constructor's and is not modelled. *)
Record columns := Columns {
  BIB_KEY : list string;
  FA_NAME : list string;
  FA_GENDER : list label;
  LA_NAME : list string;
  LA_GENDER : list label
}.

(** One pass of the loop [for key, value in author_gender_data.items()]:
    each of the five lists gets one item appended. *)
Definition append_row (ls : columns) (item : string * resolved) : columns :=
  let key := item.1 in
  let value := item.2 in
  {| BIB_KEY := BIB_KEY ls ++ [key];
     FA_NAME := FA_NAME ls ++ [value.1.1];
     FA_GENDER := FA_GENDER ls ++ [value.1.2];
     LA_NAME := LA_NAME ls ++ [value.2.1];
     LA_GENDER := LA_GENDER ls ++ [value.2.2] |}.

(** [create_author_gender_df] up to its last statement: the argument of
    the call of [pd.DataFrame]. *)
Definition create_author_gender_df_lists
    (author_gender_data : list (string * resolved)) : columns :=
  fold_left append_row author_gender_data (Columns [] [] [] [] []).

(** ** [main] *)

(** What [main] hands to the four report files. *)
Record reports := Reports {
  missed_query : gset string;
  resolved_query : list (string * resolved);
  gender_report : list (string * Z);
  stats_report : list (string * float)
}.

(** [print(gender_report)]: the [repr] of the dictionary. *)
Definition repr_report (gender_report : list (string * Z)) : string :=
  "{" +:+
  String.concat ", "
    ((λ kc : string * Z, "'" +:+ kc.1 +:+ "': " +:+ pretty kc.2) <$> gender_report)
  +:+ "}".

Definition main (requests_get : string → response) (bibstr : string) : M reports :=
  do first_pass <- find_gender bibstr None;
  do second_pass <-
    (if decide (first_pass.2 = ∅) then ret first_pass
     else do cached <- query_names requests_get first_pass.2;
          find_gender bibstr (Some cached));
  let resolved := second_pass.1 in
  let missed := second_pass.2 in
  match report_gender resolved with
  | inl e => raise e
  | inr gender_report =>
      do _ <- print (repr_report gender_report);
      ret (Reports missed resolved gender_report
             (compute_gender_stats gender_report))
  end.

(** * Vocabulary of the properties *)

(** ** Outcomes and caches *)

(** The world a computation ends in, whether it returns or raises. *)
Definition world_of {A} (o : outcome A) : world :=
  match o with
  | Return _ w => w
  | Raise _ w => w
  end.

(** The cache [query_names] starts from: the content of the file, or the
    empty dictionary when there is no file. *)
Definition loaded (w : world) : option (gmap string string) :=
  match names_cache w with
  | Absent => Some ∅
  | Holds c => Some c
  | NotJSON => None
  end.

(** A cache whose entries are all "M" or "F". *)
Definition cache_ok (cached : gmap string string) : Prop :=
  map_Forall (λ _ g, g = "M" ∨ g = "F") cached.

(** The cache a call of [find_gender] resolves against: its argument, or
    else what the cache file gives. *)
Definition effective (cached : option (gmap string string)) (w : world)
    : option (gmap string string) :=
  match cached with
  | Some c => Some c
  | None => loaded w
  end.

(** ** Reports *)

(** The nine categories, written out. *)
Definition product_order : list string :=
  ["MM"; "MF"; "MNone"; "FM"; "FF"; "FNone"; "NoneM"; "NoneF"; "NoneNone"].

(** The labels a cache of "M" and "F" entries gives. *)
Definition label_ok (l : label) : Prop :=
  l = Some "M" ∨ l = Some "F" ∨ l = None.

(** Both labels of a resolved record are such labels. *)
Definition labels_ok (r : resolved) : Prop :=
  label_ok r.1.2 ∧ label_ok r.2.2.

(** The report of no record at all. *)
Definition empty_report : list (string * Z) := (λ c, (c, 0%Z)) <$> categories.

(** The report of two records, one counted as "MF" and one as "NoneNone". *)
Definition one_each_report : list (string * Z) :=
  [("MM", 0); ("MF", 1); ("MNone", 0); ("FM", 0); ("FF", 0);
   ("FNone", 0); ("NoneM", 0); ("NoneF", 0); ("NoneNone", 1)]%Z.

(** The [float64] value [f], in its specification form, is the integer
    [z] with nothing rounded away: [z = m * 2^e]. *)
Definition holds_exactly (f : spec_float) (z : Z) : Prop :=
  match f with
  | S754_zero false => z = 0%Z
  | S754_finite false m e => (e ≤ 0)%Z ∧ Z.pos m = (z * 2 ^ (- e))%Z
  | _ => False
  end.

(** ** Dictionaries *)

(** The dictionary after the assignments [d[k] = f k a] for [(k, a)] in
    [recs], in order. *)
Definition assign_all {V A} (f : A → V) (recs : list (string * A))
    (d : list (string * V)) : list (string * V) :=
  fold_left (λ d rec, Dict.set rec.1 (f rec.2) d) recs d.

(** ** Strings *)

(** Every character of the string is in the class. *)
Fixpoint all_chars (P : ascii → bool) (s : string) : bool :=
  match s with
  | String c s' => P c && all_chars P s'
  | EmptyString => true
  end.

(** White space at the left end, at the right end. *)
Definition starts_space (s : string) : bool :=
  match s with
  | String c _ => Char.isspace c
  | EmptyString => false
  end.

Fixpoint ends_space (s : string) : bool :=
  match s with
  | String c EmptyString => Char.isspace c
  | String _ s' => ends_space s'
  | EmptyString => false
  end.

(** A full stop at the left end. *)
Definition starts_dot (s : string) : bool :=
  match s with
  | String c _ => Ascii.eqb "." c
  | EmptyString => false
  end.

(** A word character immediately followed by a full stop, somewhere in
    the string. *)
Fixpoint has_initial (s : string) : bool :=
  match s with
  | String c s' => (Char.isword c && starts_dot s') || has_initial s'
  | EmptyString => false
  end.

(** The classes "any character but [a]" and "unchanged by [lower]". *)
Definition is_not (a : ascii) (c : ascii) : bool := negb (Ascii.eqb a c).

Definition lowered (c : ascii) : bool := bool_decide (Char.lower c = c).

(** What a match of [strip_initial] at the start of [s] leaves: the text
    after the white space, one word character, a full stop and the white
    space that follows. *)
Definition initial_at (s : string) : option string :=
  match Str.lstrip s with
  | String c (String d s2) =>
      if Char.isword c && Ascii.eqb "." d then Some (Str.lstrip s2) else None
  | _ => None
  end.

(** The string without its first [n] characters. *)
Fixpoint sdrop (n : nat) (s : string) : string :=
  match n, s with
  | S k, String _ s' => sdrop k s'
  | _, _ => s
  end.

(** The scan of [strip_initial.sub("", s)], [skip] characters into a match. *)
Abbreviation scrub := (Re.sub_go strip_initial).

(** ** Answers of the service *)

(** The response to the request for [n]. *)
Definition answer (requests_get : string → response) (api_key n : string)
    : response :=
  requests_get (gender_api_query api_key n).

(** A response that is [ok] carries a body with the accuracy and, when the
    accuracy is 60 or more, the gender: the fields the loop reads. *)
Definition answers (requests_get : string → response) (api_key n : string)
    : Prop :=
  ok (answer requests_get api_key n) = true →
  ∃ a g, json (answer requests_get api_key n) = Some (Body (Some a) g)
         ∧ ((60 ≤ a)%Z → is_Some g).

(** A credential without "{" and "}", which [str.format] copies as it is. *)
Definition braceless (api_key : string) : Prop :=
  all_chars (λ c, is_not "{" c && is_not "}" c) api_key = true.

(** The entry [query_loop] stores for a reported gender. *)
Definition entry (g : string) : string :=
  if decide (g = "female") then "F" else "M".

(** ** Names and records *)

(** The normalised names of the first and of the last author of a field. *)
Definition first_name (authors : string) : string :=
  normalize (Str.first (Str.split " and" authors)).

Definition last_name (authors : string) : string :=
  normalize (Str.final (Str.split " and" authors)).

(** [sep] occurs in [s]. *)
Fixpoint contains (sep s : string) : bool :=
  match s with
  | String _ s' => String.prefix sep s || contains sep s'
  | EmptyString => String.prefix sep s
  end.

(** A name without comma or capital, and without white space at its ends. *)
Definition trimmed_lowercase (n : string) : Prop :=
  all_chars (is_not ",") n = true
  ∧ all_chars lowered n = true
  ∧ starts_space n = false
  ∧ ends_space n = false.

(** The number of records that fall in category [k]. *)
Definition count_of (k : string) (values : list resolved) : nat :=
  length (filter (λ r, category_of r = k) values).

(** The end of [main], from the call of [report_gender] on, for the pair
    of mapping and missed set the passes leave. *)
Definition finish (pass : list (string * resolved) * gset string) : M reports :=
  match report_gender pass.1 with
  | inl e => raise e
  | inr gender_report =>
      do _ <- print (repr_report gender_report);
      ret (Reports pass.2 pass.1 gender_report
             (compute_gender_stats gender_report))
  end.

(** The five lists read position by position, as records. *)
Definition rows (ls : columns) : list (string * resolved) :=
  zip_with (λ key value, (key, value)) (BIB_KEY ls)
    (zip (zip (FA_NAME ls) (FA_GENDER ls)) (zip (LA_NAME ls) (LA_GENDER ls))).

(** ** Example inputs *)

(** Two records, with the author fields of the specification's example. *)
Definition example_bib : string :=
"@article{doe2020,
  author = {Doe, J. and Roe, A.}
}
@article{smith2021,
  author = {Smith, K.}
}
".

(** [{"doe": "M", "roe": "F"}] *)
Definition example_cache : gmap string string :=
  <["doe" := "M"]> (<["roe" := "F"]> ∅).

(** The cache file holds the two entries and no credential is set. *)
Definition example_world : world := World (Holds example_cache) None [].

(** A service that answers nothing; the example never reaches it. *)
Definition no_service (url : string) : response := Response false None.

(** The outcome the specification gives for the example: labels (M, F)
    and (None, None), "smith" missed, MF = NoneNone = 1 with ratios 0.5. *)
Definition two_pass_as_stated (o : outcome reports) : Prop :=
  ∃ out w,
    o = Return out w
    ∧ (λ r : resolved, (r.1.2, r.2.2)) <$> Dict.values (resolved_query out)
      = [(Some "M", Some "F"); (None, None)]
    ∧ missed_query out = {["smith"]}
    ∧ gender_report out
      = [("MM", 0); ("MF", 1); ("MNone", 0); ("FM", 0); ("FF", 0);
         ("FNone", 0); ("NoneM", 0); ("NoneF", 0); ("NoneNone", 1)]%Z
    ∧ stats_report out
      = [("MM", 0); ("MF", 0.5); ("MNone", 0); ("FM", 0); ("FF", 0);
         ("FNone", 0); ("NoneM", 0); ("NoneF", 0); ("NoneNone", 0.5)]%float.

(** A service that knows two names: "ana" at the threshold, "smith" just
    under it. *)
Definition example_service (url : string) : response :=
  if decide (url = "https://gender-api.com/get?name=ana&key=secret")
  then Response true (Some (Body (Some 60%Z) (Some "female")))
  else if decide (url = "https://gender-api.com/get?name=smith&key=secret")
  then Response true (Some (Body (Some 59%Z) (Some "male")))
  else Response false None.

(** The same cache file, with a credential. *)
Definition keyed_world : world := World (Holds example_cache) (Some "secret") [].

(** The example with given names in full, and a cache keyed by them. *)
Definition given_names_bib : string :=
"@article{doe2020,
  author = {Doe, John and Roe, Anna}
}
@article{smith2021,
  author = {Smith, K.}
}
".

Definition given_names_cache : gmap string string :=
  <["john" := "M"]> (<["anna" := "F"]> ∅).

(** A service that knows the two given names. *)
Definition given_names_service (url : string) : response :=
  if decide (url = "https://gender-api.com/get?name=john&key=secret")
  then Response true (Some (Body (Some 99%Z) (Some "male")))
  else if decide (url = "https://gender-api.com/get?name=anna&key=secret")
  then Response true (Some (Body (Some 98%Z) (Some "female")))
  else Response false None.

(** Two records under one citation key. *)
Definition duplicate_bib : string :=
"@article{lee2019,
  author = {Lee, Ann}
}
@book{lee2019,
  author = {Kim, Bo}
}
".

(** A service whose answer for "bob" is [ok] but carries no accuracy. *)
Definition broken_service (url : string) : response :=
  if decide (url = "https://gender-api.com/get?name=ana&key=secret")
  then Response true (Some (Body (Some 97%Z) (Some "female")))
  else if decide (url = "https://gender-api.com/get?name=bob&key=secret")
  then Response true (Some (Body None None))
  else Response false None.

(** Two headers and one author field: the second record has none. *)
Definition unpaired_bib : string :=
"@article{doe2020,
  author = {Doe, John and Roe, Anna}
}
@book{smith2021,
  title = {Untitled}
}
".

(** One single-author record. *)
Definition single_author_bib : string :=
"@article{lee2019,
  author = {Lee, Ann}
}
".

(** * Properties *)

(** ** Extraction and pairing *)

Lemma find_gender_world bibstr cached w :
  world_of (find_gender bibstr cached w) = w.
Proof.
  unfold find_gender, bind, cache_exists, read_cache, ret.
  destruct cached as [c|]; [done|].
  by destruct w as [[| |c] key out].
Qed.

(** ** The two-record example *)

(** The names the example's author fields normalise to: the token after
    the last comma is the initial, and [strip_initial] removes it. *)
Example normalize_doe : normalize "Doe, J." = "".
Proof. reflexivity. Qed.

Example normalize_given_name : normalize "Doe, John K." = "john".
Proof. reflexivity. Qed.

(** C1, as stated, fails: the first record is not resolved as (M, F). *)
Lemma two_pass_example_refuted :
  ¬ two_pass_as_stated (main no_service example_bib example_world).
Proof.
  intros (out & w & Hrun & Hlabels & _).
  vm_compute in Hrun. injection Hrun as <- _.
  vm_compute in Hlabels. discriminate Hlabels.
Qed.

(** C1, amended. On the example's text, cache and missing credential the
    run returns: both records carry the empty name with no label on either
    author, the missed set is the empty name alone, the report counts
    NoneNone = 2 and 0 elsewhere, and the ratios are 1 for NoneNone and 0
    elsewhere; the cache file is as it was. *)
Theorem two_pass_example (requests_get : string → response) :
  main requests_get example_bib example_world
  = Return
      {| missed_query := {[""]};
         resolved_query :=
           [("doe2020", (("", None), ("", None)));
            ("smith2021", (("", None), ("", None)))];
         gender_report :=
           [("MM", 0); ("MF", 0); ("MNone", 0); ("FM", 0); ("FF", 0);
            ("FNone", 0); ("NoneM", 0); ("NoneF", 0); ("NoneNone", 2)]%Z;
         stats_report :=
           [("MM", 0); ("MF", 0); ("MNone", 0); ("FM", 0); ("FF", 0);
            ("FNone", 0); ("NoneM", 0); ("NoneF", 0); ("NoneNone", 1)]%float |}
      {| names_cache := Holds example_cache;
         GENDER_API_KEY := None;
         stdout :=
           ["No Gender API key - 1 names could not be mapped.";
            "{'MM': 0, 'MF': 0, 'MNone': 0, 'FM': 0, 'FF': 0, 'FNone': 0, 'NoneM': 0, 'NoneF': 0, 'NoneNone': 2}"] |}.
Proof. vm_compute. reflexivity. Qed.

(** With the given names written out and cached, the first record is
    resolved as (M, F); the initial of the second is still no name. *)
Example two_pass_given_names (requests_get : string → response) :
  ∃ w,
    main requests_get given_names_bib (World (Holds given_names_cache) None [])
    = Return
        {| missed_query := {[""]};
           resolved_query :=
             [("doe2020", (("john", Some "M"), ("anna", Some "F")));
              ("smith2021", (("", None), ("", None)))];
           gender_report :=
             [("MM", 0); ("MF", 1); ("MNone", 0); ("FM", 0); ("FF", 0);
              ("FNone", 0); ("NoneM", 0); ("NoneF", 0); ("NoneNone", 1)]%Z;
           stats_report :=
             [("MM", 0); ("MF", 0.5); ("MNone", 0); ("FM", 0); ("FF", 0);
              ("FNone", 0); ("NoneM", 0); ("NoneF", 0); ("NoneNone", 0.5)]%float |}
        w.
Proof. eexists. vm_compute. reflexivity. Qed.

(** ** The cache and the remote lookup *)

Lemma misses_of_Permutation nameset cached :
  misses_of nameset cached ≡ₚ elements (nameset ∖ dom cached).
Proof. apply merge_sort_Permutation. Qed.

Lemma misses_of_elem nameset cached n :
  n ∈ misses_of nameset cached ↔ n ∈ nameset ∧ cached !! n = None.
Proof.
  rewrite misses_of_Permutation, elem_of_elements, elem_of_difference.
  by rewrite not_elem_of_dom.
Qed.

Lemma misses_of_NoDup nameset cached : NoDup (misses_of nameset cached).
Proof. rewrite misses_of_Permutation. apply NoDup_elements. Qed.

Lemma misses_of_length nameset cached :
  length (misses_of nameset cached) = size (nameset ∖ dom cached).
Proof. by rewrite misses_of_Permutation. Qed.

Lemma misses_of_nil nameset cached :
  misses_of nameset cached = [] ↔ nameset ∖ dom cached = ∅.
Proof.
  rewrite <-leibniz_equiv_iff, <-size_empty_iff, <-misses_of_length.
  by destruct (misses_of nameset cached).
Qed.

(** [query_names] up to the test [if not misses]. *)
Lemma query_names_loaded requests_get nameset w c :
  loaded w = Some c →
  query_names requests_get nameset w
  = match misses_of nameset c with
    | [] => Return c w
    | _ :: _ =>
        match GENDER_API_KEY w with
        | None =>
            Return c
              (World (names_cache w) (GENDER_API_KEY w)
                 (stdout w ++ [no_key_message (misses_of nameset c)]))
        | Some api_key =>
            match query_loop requests_get api_key (misses_of nameset c) c w with
            | Return c' w' =>
                Return c' (World (Holds c') (GENDER_API_KEY w') (stdout w'))
            | Raise e w' => Raise e w'
            end
        end
    end.
Proof.
  unfold loaded, query_names, bind, cache_exists, read_cache, ret.
  destruct w as [[| |c0] key out]; intros [= <-]; simpl.
  - destruct (misses_of nameset ∅) as [|n l]; [done|]. by destruct key.
  - destruct (misses_of nameset c0) as [|n l]; [done|]. by destruct key.
Qed.

(** C3. With no credential and names still missing from the cache,
    [query_names] returns the cache it loaded and raises nothing; the cache
    file is what it was, and the only output is the line that tells how
    many names could not be mapped. *)
Theorem query_names_without_key
    (requests_get : string → response) (nameset : gset string)
    (w : world) (c : gmap string string) :
  GENDER_API_KEY w = None →
  loaded w = Some c →
  nameset ∖ dom c ≠ ∅ →
  query_names requests_get nameset w
  = Return c
      {| names_cache := names_cache w;
         GENDER_API_KEY := None;
         stdout :=
           stdout w ++
           ["No Gender API key - " +:+ pretty (size (nameset ∖ dom c)) +:+
            " names could not be mapped."] |}.
Proof.
  intros Hkey Hload Hmiss.
  rewrite (query_names_loaded _ _ _ _ Hload), Hkey.
  destruct (misses_of nameset c) as [|n l] eqn:Hm.
  - by apply misses_of_nil in Hm.
  - unfold no_key_message. by rewrite <-Hm, misses_of_length.
Qed.

Lemma query_names_without_key_witness :
  query_names no_service {["smith"]} example_world
  = Return example_cache
      (World (Holds example_cache) None
         ["No Gender API key - 1 names could not be mapped."]).
Proof.
  etrans.
  - apply (query_names_without_key no_service {["smith"]} example_world
             example_cache); [reflexivity | reflexivity | by vm_compute].
  - vm_compute. reflexivity.
Defined.

(** One pass of the loop [for n in misses]. *)
Lemma query_loop_cons requests_get api_key n0 misses cached w :
  query_loop requests_get api_key (n0 :: misses) cached w
  = let w1 := World (names_cache w) (GENDER_API_KEY w)
                (stdout w ++ ["Querying for " +:+ n0]) in
    let q := requests_get (gender_api_query api_key n0) in
    if ok q then
      match json q with
      | None => Raise JSONDecodeError w1
      | Some b =>
          match accuracy b with
          | None => Raise (KeyError "accuracy") w1
          | Some a =>
              if (60 <=? a)%Z then
                match gender b with
                | None => Raise (KeyError "gender") w1
                | Some g =>
                    query_loop requests_get api_key misses
                      (<[n0 := entry g]> cached) w1
                end
              else query_loop requests_get api_key misses cached w1
          end
      end
    else query_loop requests_get api_key misses cached w1.
Proof.
  cbn [query_loop]. unfold bind at 1, print at 1. cbv zeta.
  destruct (requests_get (gender_api_query api_key n0)) as [[] [[[a|] [g|]]|]];
    simpl; try reflexivity;
    unfold bind, json_of, field, ret, raise; simpl;
    destruct (60 <=? a)%Z; reflexivity.
Qed.

Section Service.

Variable requests_get : string → response.
Variable api_key : string.

(** The loop over names that all get a proper answer returns; the cache
    file and the credential are as before. *)
Lemma query_loop_returns misses :
  (∀ n, n ∈ misses → answers requests_get api_key n) →
  ∀ cached w,
  ∃ c' out,
    query_loop requests_get api_key misses cached w
    = Return c' (World (names_cache w) (GENDER_API_KEY w) out).
Proof.
  induction misses as [|n0 misses IH]; intros Hans cached w.
  { exists cached, (stdout w). by destruct w. }
  assert (Hans' : ∀ n, n ∈ misses → answers requests_get api_key n)
    by (intros; apply Hans; by right).
  pose proof (Hans n0 (list_elem_of_here _ _)) as Hn0.
  rewrite query_loop_cons. cbv zeta.
  set (w1 := World (names_cache w) (GENDER_API_KEY w)
               (stdout w ++ ["Querying for " +:+ n0])).
  unfold answers, answer in Hn0.
  destruct (requests_get (gender_api_query api_key n0)) as [[] js];
    simpl in *; [|apply (IH Hans' cached w1)].
  destruct (Hn0 eq_refl) as (a & g & -> & Hg). simpl.
  destruct (60 <=? a)%Z eqn:Ha; [|apply (IH Hans' cached w1)].
  destruct (Hg ltac:(by apply Z.leb_le)) as [g' ->].
  apply (IH Hans' _ w1).
Qed.

(** A loop that returns has touched the entries of its names only, and
    each of them by its answer. *)
Lemma query_loop_return misses :
  NoDup misses →
  ∀ cached w c' w',
  query_loop requests_get api_key misses cached w = Return c' w' →
  (∀ n, n ∉ misses → c' !! n = cached !! n)
  ∧ (∀ n, n ∈ misses → ok (answer requests_get api_key n) = false →
       c' !! n = cached !! n)
  ∧ (∀ n a g, n ∈ misses →
       answer requests_get api_key n = Response true (Some (Body (Some a) g)) →
       if (60 <=? a)%Z then ∃ g', g = Some g' ∧ c' !! n = Some (entry g')
       else c' !! n = cached !! n).
Proof.
  induction 1 as [|n0 misses Hn0 Hnd IH]; intros cached w c' w'.
  { intros [= <- <-]. split_and!; [done|..].
    - by intros n ?%elem_of_nil.
    - by intros n a g ?%elem_of_nil. }
  rewrite query_loop_cons. cbv zeta.
  set (w1 := World (names_cache w) (GENDER_API_KEY w)
               (stdout w ++ ["Querying for " +:+ n0])).
  intros Hrun.
  assert (Hstep : ∃ cached1,
    query_loop requests_get api_key misses cached1 w1 = Return c' w'
    ∧ (∀ n, n ≠ n0 → cached1 !! n = cached !! n)
    ∧ (ok (answer requests_get api_key n0) = false → cached1 = cached)
    ∧ (∀ a g,
         answer requests_get api_key n0
         = Response true (Some (Body (Some a) g)) →
         if (60 <=? a)%Z
         then ∃ g', g = Some g' ∧ cached1 !! n0 = Some (entry g')
         else cached1 = cached)).
  { unfold answer.
    destruct (requests_get (gender_api_query api_key n0)) as [[] js];
      simpl in *.
    - destruct js as [[[a|] g]|]; simpl in *; [|done|done].
      destruct (60 <=? a)%Z eqn:Ha.
      + destruct g as [g|]; [|done].
        exists (<[n0 := entry g]> cached). split_and!; [done| |done|].
        * intros n ?. by rewrite lookup_insert_ne.
        * intros a' g' [= <- <-]. rewrite Ha. exists g.
          by rewrite lookup_insert_eq.
      + exists cached. split_and!; [done..|].
        intros a' g' [= <- <-]. by rewrite Ha.
    - exists cached. split_and!; done. }
  destruct Hstep as (cached1 & Hrun1 & Hother & Hfail & Hok).
  destruct (IH cached1 w1 c' w' Hrun1) as (Hout & Hf & Hin).
  split_and!.
  - intros n Hn. apply not_elem_of_cons in Hn as [? ?].
    rewrite Hout by done. by apply Hother.
  - intros n [->|Hn]%elem_of_cons Hno.
    + rewrite Hout by done. by rewrite Hfail.
    + rewrite Hf by done. apply Hother. by intros ->.
  - intros n a g [->|Hn]%elem_of_cons Hn'.
    + specialize (Hok a g Hn'). rewrite Hout by done.
      destruct (60 <=? a)%Z; [done|]. by rewrite Hok.
    + specialize (Hin n a g Hn Hn').
      destruct (60 <=? a)%Z; [done|]. rewrite Hin. apply Hother. by intros ->.
Qed.

(** The loop over names that all get a proper answer returns; it touches
    the entries of those names only, and each of them by its answer. *)
Lemma query_loop_run misses :
  NoDup misses →
  (∀ n, n ∈ misses → answers requests_get api_key n) →
  ∀ cached w,
  ∃ c' out,
    query_loop requests_get api_key misses cached w
    = Return c' (World (names_cache w) (GENDER_API_KEY w) out)
    ∧ (∀ n, n ∉ misses → c' !! n = cached !! n)
    ∧ (∀ n, n ∈ misses → ok (answer requests_get api_key n) = false →
         c' !! n = cached !! n)
    ∧ (∀ n a g, n ∈ misses →
         answer requests_get api_key n
         = Response true (Some (Body (Some a) (Some g))) →
         c' !! n = if (60 <=? a)%Z then Some (entry g) else cached !! n).
Proof.
  intros Hnd Hans cached w.
  destruct (query_loop_returns misses Hans cached w) as (c' & out & Hrun).
  destruct (query_loop_return misses Hnd _ _ _ _ Hrun) as (Hout & Hf & Hin).
  exists c', out. split_and!; [done..|].
  intros n a g Hn Hq. specialize (Hin n a (Some g) Hn Hq).
  destruct (60 <=? a)%Z; [|done].
  by destruct Hin as (g' & [= <-] & ?).
Qed.

End Service.

(** [query_names] with a credential, on a cache file that loads, and with
    proper answers for the names asked: it returns, and the cache it
    returns is the one it wrote. *)
Lemma query_names_run requests_get nameset w api_key c :
  GENDER_API_KEY w = Some api_key →
  loaded w = Some c →
  (∀ n, n ∈ nameset → c !! n = None → answers requests_get api_key n) →
  ∃ c' w',
    query_names requests_get nameset w = Return c' w'
    ∧ (nameset ∖ dom c ≠ ∅ → names_cache w' = Holds c')
    ∧ (∀ n, n ∉ misses_of nameset c → c' !! n = c !! n)
    ∧ (∀ n, n ∈ misses_of nameset c →
         ok (answer requests_get api_key n) = false → c' !! n = None)
    ∧ (∀ n a g, n ∈ misses_of nameset c →
         answer requests_get api_key n
         = Response true (Some (Body (Some a) (Some g))) →
         c' !! n = if (60 <=? a)%Z then Some (entry g) else None).
Proof.
  intros Hkey Hload Hans.
  rewrite (query_names_loaded _ _ _ _ Hload), Hkey.
  destruct (query_loop_run requests_get api_key (misses_of nameset c)
              (misses_of_NoDup _ _)) with (cached := c) (w := w)
    as (c' & out & Hrun & Hout & Hf & Hin).
  { intros n [? ?]%misses_of_elem. by apply Hans. }
  assert (Hnone : ∀ n, n ∈ misses_of nameset c → c !! n = None)
    by (by intros n [_ ?]%misses_of_elem).
  destruct (misses_of nameset c) as [|n0 l] eqn:Hm.
  - exists c, w. split_and!; [done| |done|..].
    + intros Hne. by apply misses_of_nil in Hm.
    + by intros n ?%elem_of_nil.
    + by intros n a g ?%elem_of_nil.
  - rewrite Hrun. eexists _, _. split_and!; [done|done|done|..].
    + intros n Hn Hno. rewrite Hf by done. by apply Hnone.
    + intros n a g Hn Hn'. rewrite (Hin n a g) by done.
      destruct (60 <=? a)%Z; [done|]. by apply Hnone.
Qed.

(** A run of [query_names] with a credential that returns: what the cache
    it returns holds, and where it is stored when names were looked up. *)
Lemma query_names_returned requests_get nameset w w' api_key c c' :
  GENDER_API_KEY w = Some api_key →
  loaded w = Some c →
  query_names requests_get nameset w = Return c' w' →
  (nameset ∖ dom c ≠ ∅ → names_cache w' = Holds c')
  ∧ (∀ n, n ∉ misses_of nameset c → c' !! n = c !! n)
  ∧ (∀ n a g, n ∈ misses_of nameset c →
       answer requests_get api_key n = Response true (Some (Body (Some a) g)) →
       if (60 <=? a)%Z then ∃ g', g = Some g' ∧ c' !! n = Some (entry g')
       else c' !! n = None).
Proof.
  intros Hkey Hload. rewrite (query_names_loaded _ _ _ _ Hload), Hkey.
  assert (Hnone : ∀ n, n ∈ misses_of nameset c → c !! n = None)
    by (by intros n [_ ?]%misses_of_elem).
  pose proof (misses_of_NoDup nameset c) as Hnd.
  destruct (misses_of nameset c) as [|n0 l] eqn:Hm.
  - intros [= <- <-]. split_and!; [|done|by intros n a g ?%elem_of_nil].
    intros Hne. by apply misses_of_nil in Hm.
  - destruct (query_loop requests_get api_key (n0 :: l) c w)
      as [c1 w1|e w1] eqn:Hloop; [|done].
    intros [= <- <-].
    destruct (query_loop_return requests_get api_key _ Hnd _ _ _ _ Hloop)
      as (Hout & _ & Hin).
    split_and!; [done|done|].
    intros n a g Hn Hq. specialize (Hin n a g Hn Hq).
    destruct (60 <=? a)%Z; [done|]. rewrite Hin. by apply Hnone.
Qed.

(** C2. For a credential without braces: when a name missing from the
    cache is answered with accuracy [a], the cache a run of [query_names]
    returns has an entry for it exactly when [60 ≤ a]; the entry is "F"
    when the gender answered is "female" and "M" otherwise; with [a < 60]
    the name has no entry and is among the misses again for the cache just
    returned. The run does return when every name looked up gets a proper
    answer. *)
Theorem query_names_threshold
    (requests_get : string → response) (nameset : gset string) (w : world)
    (api_key : string) (c : gmap string string) (n : string) (a : Z)
    (g : option string) :
  braceless api_key →
  GENDER_API_KEY w = Some api_key →
  loaded w = Some c →
  n ∈ nameset →
  c !! n = None →
  requests_get (gender_api_query api_key n)
  = Response true (Some (Body (Some a) g)) →
  (∀ c' w',
     query_names requests_get nameset w = Return c' w' →
     (is_Some (c' !! n) ↔ (60 ≤ a)%Z)
     ∧ ((60 ≤ a)%Z →
        ∃ g', g = Some g'
              ∧ c' !! n = Some (if decide (g' = "female") then "F" else "M"))
     ∧ ((a < 60)%Z → c' !! n = None ∧ n ∈ misses_of nameset c'))
  ∧ ((∀ m, m ∈ nameset → c !! m = None → answers requests_get api_key m) →
     ∃ c' w', query_names requests_get nameset w = Return c' w').
Proof.
  intros _ Hkey Hload Hn Hnone Hq. split.
  - intros c' w' Hrun.
    destruct (query_names_returned _ _ _ _ _ _ _ Hkey Hload Hrun)
      as (_ & _ & Hin).
    assert (Hm : n ∈ misses_of nameset c) by (by apply misses_of_elem).
    specialize (Hin n a g Hm Hq).
    destruct (60 <=? a)%Z eqn:Ha.
    + apply Z.leb_le in Ha. destruct Hin as (g' & -> & Hc').
      split_and!; [|eauto|lia]. rewrite Hc'. split; [done|eauto].
    + apply Z.leb_gt in Ha. rewrite Hin. split_and!; [|lia|].
      * split; [by intros [? ?]|lia].
      * intros _. split; [done|]. apply misses_of_elem. by rewrite Hin.
  - intros Hans.
    destruct (query_names_run _ _ _ _ _ Hkey Hload Hans) as (c' & w' & Hrun & _).
    eauto.
Qed.

(** C5, as stated, fails: a run that looked names up and then raised has
    stored nothing, also not the name answered with accuracy 97. *)
Lemma raised_run_stores_nothing :
  let w' := World (Holds example_cache) (Some "secret")
              ["Querying for ana"; "Querying for bob"] in
  query_names broken_service {["ana"; "bob"]} keyed_world
  = Raise (KeyError "accuracy") w'
  ∧ broken_service (gender_api_query "secret" "ana")
    = Response true (Some (Body (Some 97%Z) (Some "female")))
  ∧ ∃ c', read_cache w' = Return c' w' ∧ c' !! "ana" = None.
Proof.
  split_and!; [vm_compute; reflexivity|reflexivity|].
  exists example_cache. split; reflexivity.
Qed.

(** C5, amended. For a credential without braces: a run of [query_names]
    that looks names up and returns has stored the cache it returns, so
    that the next load reads it; every entry of the cache it loaded is in
    it, and so is every looked-up name whose answer had accuracy [60] or
    more. The run does return when every name looked up gets a proper
    answer. *)
Theorem query_names_cache_grows
    (requests_get : string → response) (nameset : gset string) (w : world)
    (api_key : string) (c : gmap string string) :
  braceless api_key →
  GENDER_API_KEY w = Some api_key →
  loaded w = Some c →
  nameset ∖ dom c ≠ ∅ →
  (∀ c' w',
     query_names requests_get nameset w = Return c' w' →
     names_cache w' = Holds c'
     ∧ read_cache w' = Return c' w'
     ∧ c ⊆ c'
     ∧ (∀ n a g,
          n ∈ nameset → c !! n = None →
          requests_get (gender_api_query api_key n)
          = Response true (Some (Body (Some a) g)) →
          (60 ≤ a)%Z → is_Some (c' !! n)))
  ∧ ((∀ m, m ∈ nameset → c !! m = None → answers requests_get api_key m) →
     ∃ c' w', query_names requests_get nameset w = Return c' w').
Proof.
  intros _ Hkey Hload Hmiss. split.
  - intros c' w' Hrun.
    destruct (query_names_returned _ _ _ _ _ _ _ Hkey Hload Hrun)
      as (Hfile & Hout & Hin).
    specialize (Hfile Hmiss). split_and!; [done| | |].
    + unfold read_cache. by rewrite Hfile.
    + apply map_subseteq_spec. intros n v Hv. rewrite Hout; [done|].
      rewrite misses_of_elem, Hv. by intros [_ ?].
    + intros n a g Hn Hnone Hq Ha.
      assert (Hm : n ∈ misses_of nameset c) by (by apply misses_of_elem).
      specialize (Hin n a g Hm Hq). apply Z.leb_le in Ha. rewrite Ha in Hin.
      destruct Hin as (g' & _ & ->). eauto.
  - intros Hans.
    destruct (query_names_run _ _ _ _ _ Hkey Hload Hans) as (c' & w' & Hrun & _).
    eauto.
Qed.

Lemma secret_braceless : braceless "secret".
Proof. reflexivity. Qed.

Lemma example_service_answers (m : string) :
  m ∈ ({["ana"; "smith"]} : gset string) → answers example_service "secret" m.
Proof.
  intros [->%elem_of_singleton| ->%elem_of_singleton]%elem_of_union _;
    vm_compute; eexists _, _; (split; [reflexivity|]); eauto.
Qed.

Example query_names_example :
  query_names example_service {["ana"; "smith"]} keyed_world
  = Return (<["ana" := "F"]> example_cache)
      (World (Holds (<["ana" := "F"]> example_cache)) (Some "secret")
         ["Querying for ana"; "Querying for smith"]).
Proof. vm_compute. reflexivity. Qed.

Lemma query_names_threshold_witness :
  (∀ c' w',
     query_names example_service {["ana"; "smith"]} keyed_world = Return c' w' →
     (is_Some (c' !! "ana") ↔ (60 ≤ 60)%Z)
     ∧ ((60 ≤ 60)%Z →
        ∃ g', Some "female" = Some g'
              ∧ c' !! "ana" = Some (if decide (g' = "female") then "F" else "M"))
     ∧ ((60 < 60)%Z →
        c' !! "ana" = None ∧ "ana" ∈ misses_of {["ana"; "smith"]} c'))
  ∧ ((∀ m, m ∈ ({["ana"; "smith"]} : gset string) → example_cache !! m = None →
        answers example_service "secret" m) →
     ∃ c' w',
       query_names example_service {["ana"; "smith"]} keyed_world = Return c' w').
Proof.
  apply (query_names_threshold example_service {["ana"; "smith"]} keyed_world
           "secret" example_cache "ana" 60 (Some "female")).
  - reflexivity.
  - reflexivity.
  - reflexivity.
  - by apply elem_of_union_l, elem_of_singleton.
  - reflexivity.
  - reflexivity.
Defined.

Lemma query_names_cache_grows_witness :
  (∀ c' w',
     query_names example_service {["ana"; "smith"]} keyed_world = Return c' w' →
     names_cache w' = Holds c'
     ∧ read_cache w' = Return c' w'
     ∧ example_cache ⊆ c'
     ∧ (∀ n a g,
          n ∈ ({["ana"; "smith"]} : gset string) → example_cache !! n = None →
          example_service (gender_api_query "secret" n)
          = Response true (Some (Body (Some a) g)) →
          (60 ≤ a)%Z → is_Some (c' !! n)))
  ∧ ((∀ m, m ∈ ({["ana"; "smith"]} : gset string) → example_cache !! m = None →
        answers example_service "secret" m) →
     ∃ c' w',
       query_names example_service {["ana"; "smith"]} keyed_world = Return c' w').
Proof.
  apply (query_names_cache_grows example_service {["ana"; "smith"]} keyed_world
           "secret" example_cache).
  - reflexivity.
  - reflexivity.
  - reflexivity.
  - by vm_compute.
Defined.

(** ** The report *)

Lemma categories_product_order : categories = product_order.
Proof. reflexivity. Qed.

Lemma category_of_ok r : labels_ok r → category_of r ∈ categories.
Proof.
  destruct r as [[f lf] [l ll]]. unfold labels_ok, label_ok, category_of.
  simpl. rewrite categories_product_order. unfold product_order.
  intros [[->|[->| ->]] [->|[->| ->]]]; simpl; set_solver.
Qed.

Lemma increment_Some k retval retval' :
  increment k retval = Some retval' →
  Dict.keys retval' = Dict.keys retval ∧ total retval' = (total retval + 1)%Z.
Proof.
  unfold Dict.keys, total, Dict.values. revert retval'.
  induction retval as [|[k' n] retval IH]; intros retval'; simpl; [done|].
  destruct (decide (k = k')) as [->|Hne].
  - intros [= <-]. csimpl. split; [done|lia].
  - destruct (increment k retval) as [r|]; [|done]. intros [= <-].
    destruct (IH r eq_refl) as [Hk Ht]. csimpl. rewrite Hk, Ht. split; [done|lia].
Qed.

Lemma increment_is_Some k retval :
  k ∈ Dict.keys retval → is_Some (increment k retval).
Proof.
  unfold Dict.keys. induction retval as [|[k' n] retval IH]; simpl.
  - by intros ?%elem_of_nil.
  - destruct (decide (k = k')) as [->|Hne]; [eauto|].
    intros [?|Hin]%elem_of_cons; [done|].
    destruct (IH Hin) as [r ->]. simpl. eauto.
Qed.

Lemma tally_inr values retval retval' :
  tally values retval = inr retval' →
  Dict.keys retval' = Dict.keys retval
  ∧ total retval' = (total retval + Z.of_nat (length values))%Z.
Proof.
  revert retval. induction values as [|r values IH]; intros retval; simpl.
  - intros [= <-]. split; [done|lia].
  - destruct (increment (category_of r) retval) as [r1|] eqn:Hinc; [|done].
    intros [Hk Ht]%IH. apply increment_Some in Hinc as [Hk1 Ht1].
    rewrite Hk, Hk1, Ht, Ht1. split; [done|lia].
Qed.

Lemma tally_returns values retval :
  Forall (λ r, category_of r ∈ Dict.keys retval) values →
  ∃ retval', tally values retval = inr retval'.
Proof.
  intros Hall. revert retval Hall.
  induction values as [|r values IH]; intros retval Hall; simpl; [eauto|].
  apply Forall_cons in Hall as [Hr Hall].
  destruct (increment_is_Some _ _ Hr) as [r1 Hinc]. rewrite Hinc.
  apply IH. apply increment_Some in Hinc as [-> _]. done.
Qed.

Lemma report_gender_inr data report :
  report_gender data = inr report →
  Dict.keys report = product_order
  ∧ total report = Z.of_nat (length data).
Proof.
  unfold report_gender. intros [Hk Ht]%tally_inr. split; [done|].
  rewrite Ht. unfold Dict.values. rewrite length_fmap. done.
Qed.

Lemma set_values_Forall {V} (P : V → Prop) k v (d : list (string * V)) :
  P v → Forall P (Dict.values d) → Forall P (Dict.values (Dict.set k v d)).
Proof.
  unfold Dict.values. intros Hv. induction d as [|[k' v'] d IH]; csimpl.
  - intros _. by repeat constructor.
  - intros [Hv' Hd]%Forall_cons. destruct (decide (k = k')); csimpl.
    + by constructor.
    + constructor; [done|]. by apply IH.
Qed.

Lemma resolve_labels_ok cached authors :
  cache_ok cached → labels_ok (resolve cached authors).
Proof.
  intros Hc. unfold labels_ok, label_ok, resolve. simpl.
  split; (destruct (cached !! _) as [g|] eqn:Hg; [|by auto]);
    destruct (Hc _ _ Hg) as [-> | ->]; auto.
Qed.

(** The records [find_gender] resolves against a cache of "M" and "F"
    carry the labels [report_gender] has categories for. *)
Lemma find_gender_loop_labels_ok cached recs :
  cache_ok cached →
  Forall labels_ok (Dict.values (find_gender_loop cached recs).1).
Proof.
  intros Hc. unfold find_gender_loop.
  assert (Hgen : ∀ st, Forall labels_ok (Dict.values st.1) →
    Forall labels_ok
      (Dict.values (fold_left (find_gender_step cached) recs st).1)).
  { induction recs as [|rec recs IH]; intros st Hst; [done|]. simpl.
    apply IH. simpl. apply set_values_Forall; [|done].
    by apply resolve_labels_ok. }
  apply Hgen. constructor.
Qed.

(** C4. For resolved records whose labels are "M", "F" or [None],
    [report_gender] returns a report; its keys are the nine categories,
    each once, and its counts add up to the number of records. *)
Theorem report_gender_total (data : list (string * resolved)) :
  Forall labels_ok (Dict.values data) →
  ∃ report,
    report_gender data = inr report
    ∧ Dict.keys report = categories
    ∧ length report = 9
    ∧ NoDup (Dict.keys report)
    ∧ total report = Z.of_nat (length data).
Proof.
  intros Hok.
  destruct (tally_returns (Dict.values data) ((λ c, (c, 0%Z)) <$> categories))
    as [report Hrun].
  { eapply Forall_impl; [exact Hok|]. intros r Hr. by apply category_of_ok. }
  exists report. destruct (report_gender_inr _ _ Hrun) as [Hk Ht].
  split_and!; [done|done| | |done].
  - change 9 with (length product_order). rewrite <-Hk.
    unfold Dict.keys. by rewrite length_fmap.
  - rewrite Hk. unfold product_order.
    apply (bool_decide_unpack _). by vm_compute.
Qed.

Lemma report_gender_total_witness :
  ∃ report,
    report_gender [("lee2019", (("lee", Some "F"), ("lee", Some "F")));
                   ("doe2020", (("john", Some "M"), ("", None)))]
    = inr report
    ∧ Dict.keys report = categories
    ∧ length report = 9
    ∧ NoDup (Dict.keys report)
    ∧ total report = Z.of_nat 2.
Proof.
  apply (report_gender_total
           [("lee2019", (("lee", Some "F"), ("lee", Some "F")));
            ("doe2020", (("john", Some "M"), ("", None)))]).
  apply Forall_cons; split; [|apply Forall_cons; split; [|apply Forall_nil]];
    split; unfold label_ok; simpl; auto.
Defined.

(** C8. Whatever the records, a report that [report_gender] returns lists
    the categories MM, MF, MNone, FM, FF, FNone, NoneM, NoneF, NoneNone in
    this order, and so do the rows [compute_gender_stats] derives from it. *)
Theorem report_in_product_order
    (data : list (string * resolved)) (report : list (string * Z)) :
  report_gender data = inr report →
  Dict.keys report
  = ["MM"; "MF"; "MNone"; "FM"; "FF"; "FNone"; "NoneM"; "NoneF"; "NoneNone"]
  ∧ Dict.keys (compute_gender_stats report)
  = ["MM"; "MF"; "MNone"; "FM"; "FF"; "FNone"; "NoneM"; "NoneF"; "NoneNone"].
Proof.
  intros [Hk _]%report_gender_inr. split; [done|].
  etrans; [|exact Hk]. unfold compute_gender_stats, Dict.keys.
  by rewrite <-list_fmap_compose.
Qed.

Lemma report_in_product_order_witness :
  Dict.keys
    [("MM", 0); ("MF", 0); ("MNone", 0); ("FM", 0); ("FF", 1);
     ("FNone", 0); ("NoneM", 0); ("NoneF", 0); ("NoneNone", 0)]%Z
  = ["MM"; "MF"; "MNone"; "FM"; "FF"; "FNone"; "NoneM"; "NoneF"; "NoneNone"]
  ∧ Dict.keys
      (compute_gender_stats
         [("MM", 0); ("MF", 0); ("MNone", 0); ("FM", 0); ("FF", 1);
          ("FNone", 0); ("NoneM", 0); ("NoneF", 0); ("NoneNone", 0)]%Z)
  = ["MM"; "MF"; "MNone"; "FM"; "FF"; "FNone"; "NoneM"; "NoneF"; "NoneNone"].
Proof.
  apply (report_in_product_order
           [("lee2019", (("lee", Some "F"), ("lee", Some "F")))]).
  reflexivity.
Defined.

(** ** The ratios *)

Lemma total_zero report :
  Forall (λ kc : string * Z, (0 ≤ kc.2)%Z) report →
  total report = 0%Z →
  Forall (λ kc : string * Z, kc.2 = 0%Z) report.
Proof.
  unfold total, Dict.values.
  induction 1 as [|[k c] report Hc Hall IH]; csimpl in *; [constructor|].
  intros Hsum.
  assert (0 ≤ foldr Z.add 0 report.*2)%Z as Hrest.
  { clear -Hall. induction Hall as [|[k' c'] ? ? ? IH']; csimpl in *; lia. }
  constructor; [simpl; lia|]. apply IH. lia.
Qed.

Lemma zero_by_zero_is_nan :
  PrimFloat.is_nan (PrimFloat.div (to_float 0) (to_float 0)) = true.
Proof. reflexivity. Qed.

Lemma count_le_total report i k c :
  Forall (λ kc : string * Z, (0 ≤ kc.2)%Z) report →
  report !! i = Some (k, c) →
  (0 ≤ c ≤ total report)%Z.
Proof.
  unfold total, Dict.values. intros Hpos. revert i.
  induction Hpos as [|[k' c'] report Hc Hall IH]; intros i Hi; [done|].
  assert (0 ≤ foldr Z.add 0 report.*2)%Z as Hrest.
  { clear -Hall. induction Hall as [|[k'' c''] ? ? ? IH']; csimpl in *; lia. }
  csimpl in *. destruct i as [|i]; simpl in Hi.
  - injection Hi as -> ->. lia.
  - specialize (IH i Hi). lia.
Qed.

Section Float64.

Local Open Scope Z_scope.

Lemma digits2_bounds p :
  2 ^ (Zpos (digits2_pos p) - 1) <= Zpos p < 2 ^ Zpos (digits2_pos p).
Proof.
  induction p as [p IH|p IH|]; cbn [digits2_pos].
  - rewrite Pos2Z.inj_succ.
    replace (Z.succ (Zpos (digits2_pos p)) - 1) with (Z.succ (Zpos (digits2_pos p) - 1)) by lia.
    rewrite !Z.pow_succ_r by lia. lia.
  - rewrite Pos2Z.inj_succ.
    replace (Z.succ (Zpos (digits2_pos p)) - 1) with (Z.succ (Zpos (digits2_pos p) - 1)) by lia.
    rewrite !Z.pow_succ_r by lia. lia.
  - simpl. lia.
Qed.

Lemma digits2_le p n : 0 <= n -> Zpos p < 2 ^ n -> Zpos (digits2_pos p) <= n.
Proof.
  intros Hn Hp. destruct (digits2_bounds p) as [Hlo _].
  destruct (Z_le_gt_dec (Zpos (digits2_pos p)) n) as [|Hgt]; [assumption|].
  assert (2 ^ n <= 2 ^ (Zpos (digits2_pos p) - 1)) by (apply Z.pow_le_mono_r; lia).
  lia.
Qed.

Lemma iter_xO_digits p k :
  digits2_pos (Pos.iter xO p k) = (digits2_pos p + k)%positive.
Proof.
  induction k as [|k IH] using Pos.peano_ind.
  - simpl. lia.
  - rewrite Pos.iter_succ. cbn [digits2_pos]. rewrite IH. lia.
Qed.

Lemma iter_xO_value p k : Zpos (Pos.iter xO p k) = Zpos p * 2 ^ Zpos k.
Proof.
  induction k as [|k IH] using Pos.peano_ind.
  - simpl. lia.
  - rewrite Pos.iter_succ, Pos2Z.inj_xO, IH, Pos2Z.inj_succ, Z.pow_succ_r by lia. lia.
Qed.

(** A mantissa of 53 digits at an exponent within range is kept. *)
Lemma binary_round_aux_53 s m e :
  Zpos (digits2_pos m) = 53 -> -1074 <= e <= 971 ->
  binary_round_aux prec emax s (Zpos m) e loc_Exact = S754_finite s m e.
Proof.
  intros Hd He. unfold binary_round_aux, shr_fexp, fexp, emin, prec, emax.
  cbn [Zdigits2 shr_record_of_loc]. rewrite Hd.
  replace (Z.max (53 + e - 53) (3 - 1024 - 53) - e) with 0 by lia.
  cbn [shr shr_m loc_of_shr_record round_nearest_even Zdigits2]. rewrite Hd.
  replace (Z.max (53 + e - 53) (3 - 1024 - 53) - e) with 0 by lia.
  cbn [shr shr_m]. destruct (Z.leb_spec e (1024 - 53)); [reflexivity|lia].
Qed.

(** A positive integer below [2^53] is converted without rounding. *)
Lemma binary_normalize_exact p :
  Zpos p < 2 ^ 53 ->
  exists m e,
    binary_normalize prec emax (Zpos p) 0 false = S754_finite false m e
    /\ e <= 0 /\ Zpos m = Zpos p * 2 ^ (- e).
Proof.
  intros Hp. pose proof (digits2_le p 53 ltac:(lia) Hp) as Hd.
  cbn [binary_normalize]. unfold binary_round, shl_align.
  assert (Hf : fexp prec emax (Zpos (digits2_pos p) + 0) = Zpos (digits2_pos p) - 53).
  { unfold fexp, emin, prec, emax. lia. }
  rewrite Hf. destruct (Zpos (digits2_pos p) - 53 - 0) as [|d|d] eqn:Hdiff; [|lia|].
  - exists p, 0. split; [|split; [lia|simpl; lia]].
    apply binary_round_aux_53; lia.
  - exists (Pos.iter xO p d), (Zpos (digits2_pos p) - 53).
    split; [|split; [lia|]].
    + apply binary_round_aux_53; [|lia]. rewrite iter_xO_digits. lia.
    + rewrite iter_xO_value. f_equal. f_equal. lia.
Qed.

(** Rounding a mantissa that is not negative never gives NaN. *)
Lemma iter_pos_inv {A} (P : A -> Prop) f :
  (forall x, P x -> P (f x)) -> forall n x, P x -> P (SpecFloat.iter_pos f n x).
Proof.
  intros Hf. induction n as [n IH|n IH|]; intros x Hx; cbn [SpecFloat.iter_pos]; auto.
Qed.

Lemma shr_1_nonneg mrs : 0 <= shr_m mrs -> 0 <= shr_m (shr_1 mrs).
Proof.
  destruct mrs as [m r s]. cbn [shr_m]. intros Hm. unfold shr_1.
  destruct m as [|[p|p|]|[p|p|]]; cbn [shr_m]; lia.
Qed.

Lemma shr_fexp_nonneg m e l :
  0 <= m -> 0 <= shr_m (fst (shr_fexp prec emax m e l)).
Proof.
  intros Hm. unfold shr_fexp, shr.
  assert (H0 : 0 <= shr_m (shr_record_of_loc m l)).
  { destruct l as [|[]]; exact Hm. }
  destruct (fexp prec emax (Zdigits2 m + e) - e) as [|p|p]; cbn [fst]; [exact H0| |exact H0].
  apply (iter_pos_inv (fun x => 0 <= shr_m x)); [apply shr_1_nonneg|exact H0].
Qed.

Lemma round_nearest_even_nonneg m l : 0 <= m -> 0 <= round_nearest_even m l.
Proof.
  intros Hm. unfold round_nearest_even. destruct l as [|[]]; try lia.
  destruct (Z.even m); lia.
Qed.

Lemma binary_round_aux_not_nan s m e l :
  0 <= m -> binary_round_aux prec emax s m e l <> S754_nan.
Proof.
  intros Hm. unfold binary_round_aux.
  pose proof (shr_fexp_nonneg m e l Hm) as H1.
  destruct (shr_fexp prec emax m e l) as [mrs' e']. cbn [fst] in H1.
  pose proof (shr_fexp_nonneg _ e' loc_Exact
                (round_nearest_even_nonneg _ (loc_of_shr_record mrs') H1)) as H2.
  destruct (shr_fexp prec emax _ e' loc_Exact) as [mrs'' e'']. cbn [fst] in H2.
  destruct (shr_m mrs'') as [|q|q]; [discriminate| |lia].
  destruct (e'' <=? emax - prec); discriminate.
Qed.

(** A quotient by a positive finite value is not NaN. *)
Lemma SFdiv_finite_not_nan x my ey :
  (x = S754_zero false \/ exists mx ex, x = S754_finite false mx ex) ->
  SFdiv prec emax x (S754_finite false my ey) <> S754_nan.
Proof.
  intros [->|(mx & ex & ->)]; cbn [SFdiv]; [discriminate|].
  unfold SFdiv_core_binary.
  set (m' := match _ with Zpos _ => _ | Z0 => _ | Zneg _ => _ end).
  assert (Hm' : 0 <= m').
  { unfold m'. destruct (_ - _ - _); [lia| |lia]. apply Z.shiftl_nonneg. lia. }
  pose proof (Z_div_mod m' (Zpos my) ltac:(lia)) as Hdm.
  pose proof (Z_div_pos m' (Zpos my) ltac:(lia) Hm') as Hq.
  unfold Z.div in Hq.
  destruct (Z.div_eucl m' (Zpos my)) as [q r]. cbn [fst] in Hq.
  apply binary_round_aux_not_nan. exact Hq.
Qed.

(** A finite value divided by itself is 1. *)
Lemma SFdiv_same m e :
  SFdiv prec emax (S754_finite false m e) (S754_finite false m e)
  = Prim2SF 1%float.
Proof.
  cbn [SFdiv xorb]. unfold SFdiv_core_binary.
  replace (Zdigits2 (Zpos m) + e - (Zdigits2 (Zpos m) + e)) with 0 by lia.
  replace (e - e) with 0 by lia.
  change (Z.min (fexp prec emax 0) 0) with (-53).
  change (0 - -53) with 53.
  cbv beta iota zeta.
  rewrite Z.shiftl_mul_pow2 by lia.
  pose proof (Z_div_mod (Zpos m * 2 ^ 53) (Zpos m) ltac:(lia)) as Hdm.
  destruct (Z.div_eucl (Zpos m * 2 ^ 53) (Zpos m)) as [q r].
  destruct Hdm as [Heq Hr].
  destruct (Z.div_mod_unique (Zpos m) q (2 ^ 53) r 0) as [-> ->];
    [lia|lia|lia|].
  assert (Hloc : new_location (Zpos m) 0 = loc_Exact).
  { unfold new_location. by destruct (Z.even (Zpos m)). }
  rewrite Hloc. vm_compute. reflexivity.
Qed.

Lemma Prim2SF_nan x : Prim2SF x <> S754_nan -> is_nan x = false.
Proof.
  unfold Prim2SF. destruct (is_nan x); [congruence|reflexivity].
Qed.

(** A count below [2^53] is converted without rounding. *)
Lemma to_float_exact c :
  0 <= c < 2 ^ 53 -> holds_exactly (Prim2SF (to_float c)) c.
Proof.
  intros Hc. unfold to_float.
  rewrite of_uint63_spec, Uint63.of_Z_spec, Z.mod_small
    by (change wB with (2 ^ 63); lia).
  destruct c as [|p|p]; [done| |lia].
  destruct (binary_normalize_exact p ltac:(lia)) as (m & e & -> & He & Hm).
  done.
Qed.

End Float64.

(** C7. [compute_gender_stats] is a function of the report: it raises
    nothing. For counts that are not negative and add up to less than
    [2^53], row [i] carries the category of entry [i] and, as ratio, the
    [float64] quotient of the count by the total, both taken without
    rounding. With a positive total no ratio is NaN, a count of 0 has
    ratio 0 and a count that is the total has ratio 1; when the counts add
    up to 0 every ratio is NaN. *)
Theorem compute_gender_stats_ratios (report : list (string * Z)) :
  Forall (λ kc : string * Z, (0 ≤ kc.2)%Z) report →
  (total report < 2 ^ 53)%Z →
  length (compute_gender_stats report) = length report
  ∧ (∀ i k c,
       report !! i = Some (k, c) →
       ∃ ratio,
         compute_gender_stats report !! i = Some (k, ratio)
         ∧ (c ≤ total report)%Z
         ∧ (∃ fc ft,
              holds_exactly fc c
              ∧ holds_exactly ft (total report)
              ∧ Prim2SF ratio = SFdiv prec emax fc ft)
         ∧ ((0 < total report)%Z →
            PrimFloat.is_nan ratio = false
            ∧ (c = 0%Z → ratio = 0%float)
            ∧ (c = total report → ratio = 1%float)))
  ∧ (total report = 0%Z →
     Forall (λ row : string * float, PrimFloat.is_nan row.2 = true)
       (compute_gender_stats report)).
Proof.
  intros Hpos Hlt. unfold compute_gender_stats. split_and!.
  - by rewrite length_fmap.
  - intros i k c Hi.
    destruct (count_le_total report i k c Hpos Hi) as [Hc0 Hct].
    exists (PrimFloat.div (to_float c) (to_float (total report))).
    split; [by rewrite list_lookup_fmap, Hi|]. split; [done|].
    pose proof (to_float_exact c ltac:(lia)) as Hfc.
    pose proof (to_float_exact (total report) ltac:(lia)) as Hft.
    split.
    { exists (Prim2SF (to_float c)), (Prim2SF (to_float (total report))).
      split_and!; [done|done|apply FloatAxioms.div_spec]. }
    intros Htot.
    destruct (Prim2SF (to_float (total report))) as [[]| | |[] mt et] eqn:Het;
      simpl in Hft; try done; [lia|].
    split_and!.
    + apply Prim2SF_nan. rewrite FloatAxioms.div_spec, Het.
      apply SFdiv_finite_not_nan.
      destruct (Prim2SF (to_float c)) as [[]| | |[] mc ec]; simpl in Hfc;
        try done; eauto.
    + intros ->. apply Prim2SF_inj. by rewrite FloatAxioms.div_spec, Het.
    + intros ->. apply Prim2SF_inj. rewrite FloatAxioms.div_spec, Het.
      apply SFdiv_same.
  - intros Hzero. rewrite Hzero. apply Forall_fmap.
    eapply Forall_impl; [exact (total_zero _ Hpos Hzero)|].
    intros [k c] Hc. simpl in *. rewrite Hc. apply zero_by_zero_is_nan.
Qed.

Example report_gender_nil : report_gender [] = inr empty_report.
Proof. reflexivity. Qed.

Lemma compute_gender_stats_ratios_witness :
  length (compute_gender_stats one_each_report) = length one_each_report
  ∧ (∀ i k c,
       one_each_report !! i = Some (k, c) →
       ∃ ratio,
         compute_gender_stats one_each_report !! i = Some (k, ratio)
         ∧ (c ≤ total one_each_report)%Z
         ∧ (∃ fc ft,
              holds_exactly fc c
              ∧ holds_exactly ft (total one_each_report)
              ∧ Prim2SF ratio = SFdiv prec emax fc ft)
         ∧ ((0 < total one_each_report)%Z →
            PrimFloat.is_nan ratio = false
            ∧ (c = 0%Z → ratio = 0%float)
            ∧ (c = total one_each_report → ratio = 1%float)))
  ∧ (total one_each_report = 0%Z →
     Forall (λ row : string * float, PrimFloat.is_nan row.2 = true)
       (compute_gender_stats one_each_report)).
Proof.
  apply (compute_gender_stats_ratios one_each_report).
  - apply (bool_decide_unpack _). by vm_compute.
  - by vm_compute.
Defined.

Example ratios_of_one_each :
  compute_gender_stats
    [("MM", 0); ("MF", 1); ("MNone", 0); ("FM", 0); ("FF", 0);
     ("FNone", 0); ("NoneM", 0); ("NoneF", 0); ("NoneNone", 1)]%Z
  = [("MM", 0); ("MF", 0.5); ("MNone", 0); ("FM", 0); ("FF", 0);
     ("FNone", 0); ("NoneM", 0); ("NoneF", 0); ("NoneNone", 0.5)]%float.
Proof. vm_compute. reflexivity. Qed.

(** ** One entry per citation key *)

Section Entries.
Context {V : Type}.
Implicit Types (d : list (string * V)) (k : string) (v : V).

Lemma set_keys k v d :
  Dict.keys (Dict.set k v d)
  = if decide (k ∈ Dict.keys d) then Dict.keys d else Dict.keys d ++ [k].
Proof.
  unfold Dict.keys. induction d as [|[k' v'] d IH]; csimpl; [done|].
  destruct (decide (k = k')) as [->|Hne]; csimpl.
  - rewrite decide_True; [done|]. by left.
  - rewrite IH. destruct (decide (k ∈ d.*1)) as [Hin|Hout].
    + rewrite decide_True; [done|]. by right.
    + rewrite decide_False; [done|]. by intros [?|?]%elem_of_cons.
Qed.

Lemma set_fresh k v d : k ∉ Dict.keys d → Dict.set k v d = d ++ [(k, v)].
Proof.
  unfold Dict.keys. induction d as [|[k' v'] d IH]; csimpl; [done|].
  intros [Hne Hout]%not_elem_of_cons.
  rewrite decide_False by done. by rewrite IH.
Qed.

Lemma set_get k v d : Dict.get k (Dict.set k v d) = Some v.
Proof.
  induction d as [|[k' v'] d IH]; simpl.
  - by rewrite decide_True.
  - destruct (decide (k = k')) as [->|Hne]; simpl.
    + by rewrite decide_True.
    + by rewrite decide_False.
Qed.

Lemma assign_all_keys {A} (f : A → V) (recs : list (string * A)) d k :
  k ∈ Dict.keys (assign_all f recs d) ↔ k ∈ Dict.keys d ∨ k ∈ recs.*1.
Proof.
  revert d. induction recs as [|[k0 a0] recs IH]; intros d; csimpl.
  - rewrite elem_of_nil. tauto.
  - unfold assign_all in *. simpl. rewrite IH, set_keys, elem_of_cons.
    destruct (decide (k0 ∈ Dict.keys d)).
    + split; [tauto|]. intros [?|[->|?]]; tauto.
    + rewrite elem_of_app, list_elem_of_singleton. tauto.
Qed.

Lemma assign_all_NoDup {A} (f : A → V) (recs : list (string * A)) d :
  NoDup (Dict.keys d) → NoDup (Dict.keys (assign_all f recs d)).
Proof.
  revert d. induction recs as [|[k0 a0] recs IH]; intros d Hd; [done|].
  unfold assign_all in *. simpl. apply IH. rewrite set_keys.
  destruct (decide (k0 ∈ Dict.keys d)); [done|].
  apply NoDup_app. split_and!; [done| |apply NoDup_singleton].
  by intros k ? ->%list_elem_of_singleton.
Qed.

Lemma assign_all_length {A} (f : A → V) (recs : list (string * A)) d :
  length (assign_all f recs d) ≤ length d + length recs.
Proof.
  revert d. induction recs as [|[k0 a0] recs IH]; intros d; simpl; [lia|].
  unfold assign_all in *. simpl. etrans; [apply IH|].
  assert (length (Dict.keys (Dict.set k0 (f a0) d)) ≤ S (length (Dict.keys d))) as Hlen.
  { rewrite set_keys. destruct (decide _); [lia|]. rewrite length_app. simpl. lia. }
  unfold Dict.keys in Hlen. rewrite !length_fmap in Hlen. lia.
Qed.

Lemma assign_all_fresh {A} (f : A → V) (recs : list (string * A)) d :
  NoDup (Dict.keys d ++ recs.*1) →
  assign_all f recs d = d ++ ((λ rec, (rec.1, f rec.2)) <$> recs).
Proof.
  revert d. induction recs as [|[k0 a0] recs IH]; intros d Hnd; csimpl.
  - by rewrite app_nil_r.
  - unfold assign_all in *. simpl.
    apply NoDup_app in Hnd as (Hd & Hdisj & [Hk0 Hrecs]%NoDup_cons).
    rewrite set_fresh by (intros Hin; apply (Hdisj _ Hin); by left).
    rewrite IH.
    + by rewrite <-app_assoc.
    + unfold Dict.keys. rewrite fmap_app. csimpl. rewrite <-app_assoc. simpl.
      apply NoDup_app. split_and!; [done| |by apply NoDup_cons].
      intros k Hin. by apply Hdisj.
Qed.

End Entries.

Lemma find_gender_run bibstr cached w c :
  effective cached w = Some c →
  find_gender bibstr cached w = Return (find_gender_loop c (records bibstr)) w.
Proof.
  unfold effective, loaded, find_gender, bind, cache_exists, read_cache, ret.
  destruct cached as [c0|]; [by intros [= ->]|].
  by destruct w as [[| |c0] key out]; intros [= <-].
Qed.

Lemma find_gender_loop_data cached recs :
  (find_gender_loop cached recs).1 = assign_all (resolve cached) recs [].
Proof.
  unfold find_gender_loop, assign_all.
  generalize (∅ : gset string). generalize ([] : list (string * resolved)).
  induction recs as [|rec recs IH]; intros d m; [done|]. simpl. apply IH.
Qed.

Lemma note_missed_elem missed (a : author) n :
  n ∈ note_missed missed a ↔ n ∈ missed ∨ (a.2 = None ∧ n = a.1).
Proof.
  unfold note_missed. destruct a as [f [g|]]; simpl.
  - split; [auto|]. by intros [?|[? _]].
  - rewrite elem_of_union, elem_of_singleton. split.
    + intros [->|?]; auto.
    + intros [?|[_ ->]]; auto.
Qed.

Lemma find_gender_step_missed c st rec n :
  n ∈ (find_gender_step c st rec).2
  ↔ n ∈ st.2 ∨ (c !! n = None ∧ (n = first_name rec.2 ∨ n = last_name rec.2)).
Proof.
  unfold find_gender_step. simpl. rewrite !note_missed_elem.
  change (resolve c rec.2).1 with (first_name rec.2, c !! first_name rec.2).
  change (resolve c rec.2).2 with (last_name rec.2, c !! last_name rec.2).
  simpl. split.
  - intros [[?|[? ->]]|[? ->]]; auto.
  - intros [?|[Hn [Hf|Hl]]]; [by left; left| |].
    + left. right. fold (first_name rec.2). by rewrite <-Hf.
    + right. fold (last_name rec.2). by rewrite <-Hl.
Qed.

Lemma find_gender_loop_missed c recs n :
  n ∈ (find_gender_loop c recs).2
  ↔ c !! n = None
    ∧ ∃ bid authors, (bid, authors) ∈ recs
        ∧ (n = first_name authors ∨ n = last_name authors).
Proof.
  unfold find_gender_loop.
  assert (Hgen : ∀ st,
    n ∈ (fold_left (find_gender_step c) recs st).2
    ↔ n ∈ st.2
      ∨ (c !! n = None
         ∧ ∃ bid authors, (bid, authors) ∈ recs
             ∧ (n = first_name authors ∨ n = last_name authors))).
  { induction recs as [|[bid0 a0] recs IH]; intros st; simpl.
    - split; [auto|]. intros [?|(_ & ? & ? & []%elem_of_nil & _)]; done.
    - rewrite IH, find_gender_step_missed. simpl. split.
      + intros [[?|[? ?]]|(? & bid & a & ? & ?)]; [by left|right..].
        * split; [done|]. exists bid0, a0. split; [by left|done].
        * split; [done|]. exists bid, a. split; [by right|done].
      + intros [?|(? & bid & a & [[= -> ->]|?]%elem_of_cons & ?)].
        * by left; left.
        * by left; right.
        * right. split; [done|]. by exists bid, a. }
  rewrite Hgen. simpl. rewrite elem_of_empty. tauto.
Qed.

Lemma set_elem {V} k (v : V) d x : x ∈ Dict.set k v d → x = (k, v) ∨ x ∈ d.
Proof.
  induction d as [|[k' v'] d IH]; simpl.
  - intros ?%list_elem_of_singleton. by left.
  - destruct (decide (k = k')).
    + intros [->|?]%elem_of_cons; [by left|]. right. by right.
    + intros [->|Hx]%elem_of_cons; [right; by left|].
      destruct (IH Hx); [by left|]. right. by right.
Qed.

Lemma assign_all_elem {V A} (f : A → V) recs d k v :
  (k, v) ∈ assign_all f recs d →
  (k, v) ∈ d ∨ ∃ a, (k, a) ∈ recs ∧ v = f a.
Proof.
  revert d. induction recs as [|[k0 a0] recs IH]; intros d; [by left|].
  unfold assign_all in *. simpl. intros [Hin|(a & Ha & ->)]%IH.
  - apply set_elem in Hin as [[= -> ->]|?]; [|by left].
    right. exists a0. split; [by left|done].
  - right. exists a. split; [by right|done].
Qed.

Lemma get_set_ne {V} k k' (v : V) d :
  k ≠ k' → Dict.get k (Dict.set k' v d) = Dict.get k d.
Proof.
  intros Hne. induction d as [|[k0 v0] d IH]; simpl.
  - by rewrite decide_False.
  - destruct (decide (k' = k0)) as [->|Hne']; simpl.
    + by rewrite !decide_False.
    + destruct (decide (k = k0)); [done|]. exact IH.
Qed.

Lemma assign_all_get_other {V A} (f : A → V) recs d k :
  k ∉ recs.*1 → Dict.get k (assign_all f recs d) = Dict.get k d.
Proof.
  revert d. induction recs as [|[k0 a0] recs IH]; intros d; [done|]. csimpl.
  intros [Hne Hout]%not_elem_of_cons. unfold assign_all in *. simpl.
  rewrite IH by done. by apply get_set_ne.
Qed.

Lemma assign_all_get_last {V A} (f : A → V) recs d i k a :
  recs !! i = Some (k, a) →
  (∀ j a', i < j → recs !! j ≠ Some (k, a')) →
  Dict.get k (assign_all f recs d) = Some (f a).
Proof.
  revert d i. induction recs as [|[k0 a0] recs IH]; intros d i; [done|].
  unfold assign_all in *. destruct i as [|i]; simpl.
  - intros [= -> ->] Hlast.
    change (fold_left _ recs ?d0) with (assign_all f recs d0).
    rewrite assign_all_get_other; [apply set_get|].
    intros ([k' a'] & Hk & [j Hj]%list_elem_of_lookup_1)%list_elem_of_fmap.
    simpl in Hk. subst k'. apply (Hlast (S j) a'); [lia|done].
  - intros Hi Hlast. apply (IH _ i); [done|].
    intros j a' Hij. apply (Hlast (S j) a'). lia.
Qed.

(** C9, as stated, fails: two paired records, one entry. *)
Lemma duplicate_key_one_entry :
  ∃ data missed w,
    find_gender duplicate_bib None (World Absent None []) = Return (data, missed) w
    ∧ records duplicate_bib = [("lee2019", "Lee, Ann"); ("lee2019", "Kim, Bo")]
    ∧ data = [("lee2019", (("bo", None), ("bo", None)))]
    ∧ length data ≠ length (records duplicate_bib).
Proof.
  eexists _, _, _. split; [vm_compute; reflexivity|].
  split; [vm_compute; reflexivity|]. split; [reflexivity|]. by vm_compute.
Qed.

(** C9, amended. [find_gender] returns a mapping with one entry per
    distinct citation key among the paired records, and so with at most as
    many entries as records; when the citation keys of the paired records
    differ from one another, it has exactly one entry per record, in the
    order of the text, holding that record's resolution. *)
Theorem one_entry_per_citation_key
    (bibstr : string) (cached : option (gmap string string)) (w : world)
    (c : gmap string string) :
  effective cached w = Some c →
  ∃ data missed,
    find_gender bibstr cached w = Return (data, missed) w
    ∧ NoDup (Dict.keys data)
    ∧ (∀ bid, bid ∈ Dict.keys data ↔ bid ∈ (records bibstr).*1)
    ∧ length data ≤ length (records bibstr)
    ∧ (NoDup (records bibstr).*1 →
       data = (λ rec, (rec.1, resolve c rec.2)) <$> records bibstr
       ∧ length data = length (records bibstr)).
Proof.
  intros Heff. rewrite (find_gender_run _ _ _ _ Heff).
  destruct (find_gender_loop c (records bibstr)) as [data missed] eqn:Hloop.
  assert (Hdata : data = assign_all (resolve c) (records bibstr) [])
    by (by rewrite <-find_gender_loop_data, Hloop).
  exists data, missed. rewrite Hdata. split_and!; [done|..].
  - apply assign_all_NoDup. constructor.
  - intros bid. rewrite assign_all_keys. unfold Dict.keys. simpl.
    rewrite elem_of_nil. tauto.
  - apply (assign_all_length (resolve c) (records bibstr) []).
  - intros Hnd. rewrite assign_all_fresh by done. simpl.
    split; [done|]. by rewrite length_fmap.
Qed.

Lemma one_entry_per_citation_key_witness :
  ∃ data missed,
    find_gender example_bib None example_world = Return (data, missed) example_world
    ∧ NoDup (Dict.keys data)
    ∧ (∀ bid, bid ∈ Dict.keys data ↔ bid ∈ (records example_bib).*1)
    ∧ length data ≤ length (records example_bib)
    ∧ (NoDup (records example_bib).*1 →
       data = (λ rec, (rec.1, resolve example_cache rec.2)) <$> records example_bib
       ∧ length data = length (records example_bib)).
Proof.
  apply (one_entry_per_citation_key example_bib None example_world example_cache).
  reflexivity.
Defined.

(** ** Pairing by index *)

(** C10. The loop of [find_gender] runs over as many records as the
    shorter of the two [findall] results has items, [n]: record [i] pairs
    the [i]-th citation key with the [i]-th author field. What
    [find_gender] returns comes from these [n] pairs and from nothing
    else: the keys of the mapping are the citation keys at the indices
    below [n], every entry is the resolution of the author field paired
    with its key, and the names missed are names of the author fields
    below [n] that the cache lacks; an item without a partner at its
    index is in no record. [find_gender] prints nothing and leaves the
    cache file as it is, whatever the two counts are. *)
Theorem records_pair_up_to_shorter (bibstr : string) :
  let bib_id := Re.findall bib_id_re bibstr in
  let author_lists :=
    Str.replace Char.newline " " <$> Re.findall author_re bibstr in
  let n := length bib_id `min` length author_lists in
  length (records bibstr) = n
  ∧ (∀ i bid authors,
       records bibstr !! i = Some (bid, authors)
       ↔ bib_id !! i = Some bid ∧ author_lists !! i = Some authors)
  ∧ records bibstr
    = zip (take (length author_lists) bib_id)
          (take (length bib_id) author_lists)
  ∧ (∀ cached w, world_of (find_gender bibstr cached w) = w)
  ∧ (∀ cached w c,
       effective cached w = Some c →
       ∃ data missed,
         find_gender bibstr cached w = Return (data, missed) w
         ∧ length data ≤ n
         ∧ (∀ bid,
              bid ∈ Dict.keys data ↔ ∃ i, i < n ∧ bib_id !! i = Some bid)
         ∧ (∀ bid r,
              (bid, r) ∈ data →
              ∃ i authors,
                i < n ∧ bib_id !! i = Some bid
                ∧ author_lists !! i = Some authors ∧ r = resolve c authors)
         ∧ (∀ m,
              m ∈ missed
              ↔ c !! m = None
                ∧ ∃ i authors,
                    i < n ∧ author_lists !! i = Some authors
                    ∧ (m = first_name authors ∨ m = last_name authors))).
Proof.
  intros bib_id author_lists n.
  assert (Hrec : records bibstr = zip bib_id author_lists) by done.
  assert (Hlen : length (records bibstr) = n)
    by (rewrite Hrec; apply length_zip_with).
  assert (Hlook : ∀ i bid authors,
    records bibstr !! i = Some (bid, authors)
    ↔ bib_id !! i = Some bid ∧ author_lists !! i = Some authors).
  { intros i bid authors. rewrite Hrec, lookup_zip_with_Some. split.
    - intros (x & y & [= -> ->] & ? & ?); done.
    - intros [? ?]; eauto. }
  split_and!; [done|done| |apply find_gender_world|].
  { rewrite Hrec. by rewrite zip_with_take_both. }
  intros cached w c Heff.
  exists (find_gender_loop c (records bibstr)).1,
         (find_gender_loop c (records bibstr)).2.
  split_and!.
  - rewrite (find_gender_run _ _ _ _ Heff).
    by destruct (find_gender_loop c (records bibstr)).
  - rewrite find_gender_loop_data, <-Hlen.
    apply (assign_all_length (resolve c) (records bibstr) []).
  - intros bid. rewrite find_gender_loop_data, assign_all_keys. split.
    + intros [[]%elem_of_nil|Hin].
      apply list_elem_of_fmap in Hin
        as ([bid' authors] & -> & [i Hi]%list_elem_of_lookup_1).
      exists i. split; [rewrite <-Hlen; by eapply lookup_lt_Some|].
      by apply Hlook in Hi as [? _].
    + intros (i & Hi & Hb). right.
      destruct (lookup_lt_is_Some_2 author_lists i) as [authors Ha];
        [unfold n in Hi; lia|].
      apply list_elem_of_fmap. exists (bid, authors). split; [done|].
      apply list_elem_of_lookup_2 with i. by apply Hlook.
  - intros bid r. rewrite find_gender_loop_data.
    intros [[]%elem_of_nil
           |(authors & [i Hi]%list_elem_of_lookup_1 & ->)]%assign_all_elem.
    exists i, authors. pose proof Hi as [? ?]%Hlook.
    split_and!; [rewrite <-Hlen; by eapply lookup_lt_Some|done..].
  - intros m. rewrite find_gender_loop_missed. split.
    + intros (Hm & bid & authors & [i Hi]%list_elem_of_lookup_1 & Hor).
      split; [done|]. exists i, authors. pose proof Hi as [? ?]%Hlook.
      split_and!; [rewrite <-Hlen; by eapply lookup_lt_Some|done..].
    + intros (Hm & i & authors & Hi & Ha & Hor). split; [done|].
      destruct (lookup_lt_is_Some_2 bib_id i) as [bid Hb];
        [unfold n in Hi; lia|].
      exists bid, authors. split; [|done].
      apply list_elem_of_lookup_2 with i. by apply Hlook.
Qed.

Lemma records_pair_up_to_shorter_witness :
  ∃ data missed,
    find_gender unpaired_bib None (World Absent None [])
    = Return (data, missed) (World Absent None [])
    ∧ length data
      ≤ length (Re.findall bib_id_re unpaired_bib)
        `min` length (Str.replace Char.newline " "
                        <$> Re.findall author_re unpaired_bib)
    ∧ (∀ bid,
         bid ∈ Dict.keys data
         ↔ ∃ i,
             i < length (Re.findall bib_id_re unpaired_bib)
                 `min` length (Str.replace Char.newline " "
                                 <$> Re.findall author_re unpaired_bib)
             ∧ Re.findall bib_id_re unpaired_bib !! i = Some bid)
    ∧ (∀ bid r,
         (bid, r) ∈ data →
         ∃ i authors,
           i < length (Re.findall bib_id_re unpaired_bib)
               `min` length (Str.replace Char.newline " "
                               <$> Re.findall author_re unpaired_bib)
           ∧ Re.findall bib_id_re unpaired_bib !! i = Some bid
           ∧ (Str.replace Char.newline " "
                <$> Re.findall author_re unpaired_bib) !! i = Some authors
           ∧ r = resolve ∅ authors)
    ∧ (∀ m,
         m ∈ missed
         ↔ (∅ : gmap string string) !! m = None
           ∧ ∃ i authors,
               i < length (Re.findall bib_id_re unpaired_bib)
                   `min` length (Str.replace Char.newline " "
                                   <$> Re.findall author_re unpaired_bib)
               ∧ (Str.replace Char.newline " "
                    <$> Re.findall author_re unpaired_bib) !! i = Some authors
               ∧ (m = first_name authors ∨ m = last_name authors)).
Proof.
  pose proof (records_pair_up_to_shorter unpaired_bib) as H. cbv zeta in H.
  destruct H as (_ & _ & _ & _ & H).
  apply (H None (World Absent None []) ∅). reflexivity.
Defined.

(** A header without an author field after the last paired one: its key
    is in no entry. *)
Example unpaired_header_dropped :
  Re.findall bib_id_re unpaired_bib = ["doe2020"; "smith2021"]
  ∧ Re.findall author_re unpaired_bib = ["Doe, John and Roe, Anna"]
  ∧ find_gender unpaired_bib None (World Absent None [])
    = Return
        ([("doe2020", (("john", None), ("anna", None)))], {["anna"; "john"]})
        (World Absent None []).
Proof. split_and!; vm_compute; reflexivity. Qed.

(** ** Normalisation *)

(** *** Characters *)

#[local] Arguments Ascii.eqb : simpl never.

Ltac by_cases_on c := destruct c as [[] [] [] [] [] [] [] []]; vm_compute; congruence.

Lemma isword_not_isspace c : Char.isword c = true → Char.isspace c = false.
Proof. by_cases_on c. Qed.

Lemma isspace_lower c : Char.isspace (Char.lower c) = Char.isspace c.
Proof. by_cases_on c. Qed.

Lemma lower_lower c : Char.lower (Char.lower c) = Char.lower c.
Proof. by_cases_on c. Qed.

Lemma lower_comma c : Char.lower c = ","%char → c = ","%char.
Proof. by_cases_on c. Qed.

Lemma lower_dot c : Char.lower c = "."%char → c = "."%char.
Proof. by_cases_on c. Qed.

(** *** [strip] and [lower] *)

Lemma lstrip_id s : starts_space s = false → Str.lstrip s = s.
Proof. destruct s as [|c s]; simpl; [done|]. by intros ->. Qed.

Lemma lstrip_starts s : starts_space (Str.lstrip s) = false.
Proof.
  induction s as [|c s IH]; simpl; [done|].
  destruct (Char.isspace c) eqn:Hc; [done|]. simpl. by rewrite Hc.
Qed.

Lemma rstrip_cons c s :
  Str.rstrip (String c s)
  = match Str.rstrip s with
    | EmptyString => if Char.isspace c then EmptyString else String c EmptyString
    | t => String c t
    end.
Proof. done. Qed.

Lemma rstrip_id s : ends_space s = false → Str.rstrip s = s.
Proof.
  induction s as [|c s IH]; [done|]. rewrite rstrip_cons.
  destruct s as [|c' s].
  - simpl. by intros ->.
  - intros Hs. rewrite IH by done. done.
Qed.

Lemma rstrip_ends s : ends_space (Str.rstrip s) = false.
Proof.
  induction s as [|c s IH]; [done|]. rewrite rstrip_cons.
  destruct (Str.rstrip s) as [|c' t].
  - destruct (Char.isspace c) eqn:Hc; simpl; [done|]. by rewrite Hc.
  - done.
Qed.

Lemma rstrip_starts s : starts_space s = false → starts_space (Str.rstrip s) = false.
Proof.
  destruct s as [|c s]; [done|]. rewrite rstrip_cons. simpl. intros Hc.
  destruct (Str.rstrip s); [|done]. by rewrite Hc.
Qed.

Lemma strip_trimmed s :
  starts_space (Str.strip s) = false ∧ ends_space (Str.strip s) = false.
Proof.
  unfold Str.strip. split; [|apply rstrip_ends].
  apply rstrip_starts, lstrip_starts.
Qed.

Lemma strip_id s :
  starts_space s = false → ends_space s = false → Str.strip s = s.
Proof. intros Hs He. unfold Str.strip. by rewrite lstrip_id, rstrip_id. Qed.

Lemma lower_starts s : starts_space (Str.lower s) = starts_space s.
Proof. destruct s; [done|]. apply isspace_lower. Qed.

Lemma lower_ends s : ends_space (Str.lower s) = ends_space s.
Proof.
  induction s as [|c s IH]; [done|]. destruct s as [|c' s].
  - apply isspace_lower.
  - exact IH.
Qed.

Lemma lower_lowered s : all_chars lowered (Str.lower s) = true.
Proof.
  induction s as [|c s IH]; [done|]. simpl. rewrite IH, andb_true_r.
  apply bool_decide_eq_true, lower_lower.
Qed.

Lemma lower_id s : all_chars lowered s = true → Str.lower s = s.
Proof.
  induction s as [|c s IH]; [done|]. simpl.
  intros [Hc Hs]%andb_true_iff. apply bool_decide_eq_true in Hc.
  by rewrite Hc, IH.
Qed.

Lemma lower_all_not a s :
  (∀ c, Char.lower c = a → c = a) →
  all_chars (is_not a) s = true → all_chars (is_not a) (Str.lower s) = true.
Proof.
  intros Ha. induction s as [|c s IH]; [done|]. simpl.
  intros [Hc Hs]%andb_true_iff. rewrite IH, andb_true_r by done.
  unfold is_not in *. apply negb_true_iff, Ascii.eqb_neq.
  apply negb_true_iff, Ascii.eqb_neq in Hc. intros Heq. apply Hc.
  symmetry. by apply Ha.
Qed.

Lemma lstrip_all P s : all_chars P s = true → all_chars P (Str.lstrip s) = true.
Proof.
  induction s as [|c s IH]; [done|]. simpl.
  intros [Hc Hs]%andb_true_iff.
  destruct (Char.isspace c); [by apply IH|]. simpl. by rewrite Hc, Hs.
Qed.

Lemma rstrip_all P s : all_chars P s = true → all_chars P (Str.rstrip s) = true.
Proof.
  induction s as [|c s IH]; [done|]. rewrite rstrip_cons. simpl.
  intros [Hc Hs]%andb_true_iff. specialize (IH Hs).
  destruct (Str.rstrip s).
  - destruct (Char.isspace c); [done|]. simpl. by rewrite Hc.
  - simpl in *. by rewrite Hc, IH.
Qed.

Lemma strip_all P s : all_chars P s = true → all_chars P (Str.strip s) = true.
Proof. intros. by apply rstrip_all, lstrip_all. Qed.

(** *** [split(",")[-1]] *)

Lemma prefix_single a c s :
  String.prefix (String a EmptyString) (String c s) = Ascii.eqb a c.
Proof.
  cbn [String.prefix]. destruct (ascii_dec a c) as [->|Hne].
  - rewrite Ascii.eqb_refl. by destruct s.
  - symmetry. by apply Ascii.eqb_neq.
Qed.

Lemma split_comma_cons c s :
  Str.split "," (String c s)
  = if Ascii.eqb "," c then EmptyString :: Str.split "," s
    else match Str.split "," s with
         | h :: t => String c h :: t
         | [] => [String c EmptyString]
         end.
Proof.
  unfold Str.split. cbn [Str.split_go]. by rewrite prefix_single.
Qed.

Lemma split_comma_nonempty s : Str.split "," s ≠ [].
Proof.
  induction s as [|c s IH]; [done|]. rewrite split_comma_cons.
  destruct (Ascii.eqb "," c); [done|]. by destruct (Str.split "," s).
Qed.

Lemma final_cons x l : l ≠ [] → Str.final (x :: l) = Str.final l.
Proof. by destruct l. Qed.

Lemma final_split_comma s :
  all_chars (is_not ",") (Str.final (Str.split "," s)) = true.
Proof.
  induction s as [|c s IH]; [done|]. rewrite split_comma_cons.
  destruct (Ascii.eqb "," c) eqn:Hc.
  - rewrite final_cons by apply split_comma_nonempty. done.
  - pose proof (split_comma_nonempty s) as Hne.
    destruct (Str.split "," s) as [|h t]; [done|].
    destruct t as [|h' t].
    + unfold Str.final in *. cbn [List.last all_chars] in *.
      unfold is_not at 1. by rewrite Hc, IH.
    + exact IH.
Qed.

Lemma split_comma_none s :
  all_chars (is_not ",") s = true → Str.split "," s = [s].
Proof.
  induction s as [|c s IH]; [done|]. cbn [all_chars].
  intros [Hc Hs]%andb_true_iff. rewrite split_comma_cons, (IH Hs).
  unfold is_not in Hc. apply negb_true_iff in Hc. by rewrite Hc.
Qed.

(** *** A match of [strip_initial] *)

Section Greedy.
Context {R : Type} (k : string → option R).

Lemma greedy_longest s r :
  k (Str.lstrip s) = Some r →
  snd <$> Re.greedy Char.isspace k s = Some r.
Proof.
  induction s as [|c s IH]; simpl.
  - by intros ->.
  - destruct (Char.isspace c) eqn:Hc.
    + intros Hk. specialize (IH Hk).
      destruct (Re.greedy Char.isspace k s) as [[t r']|]; [|done].
      simpl in *. done.
    + by intros ->.
Qed.

Lemma greedy_none s :
  (∀ c s', Char.isspace c = true → k (String c s') = None) →
  k (Str.lstrip s) = None →
  Re.greedy Char.isspace k s = None.
Proof.
  intros Hk. induction s as [|c s IH]; simpl.
  - by intros ->.
  - destruct (Char.isspace c) eqn:Hc.
    + intros Hnone. rewrite (IH Hnone). by rewrite Hk.
    + by intros ->.
Qed.

End Greedy.

Lemma match_strip_initial s :
  Re.match_here strip_initial s = pair EmptyString <$> initial_at s.
Proof.
  unfold strip_initial.
  set (k := Re.match_here
              [Re.one Char.isword; Re.lit "."; Re.star Char.isspace]).
  assert (Hk : ∀ s, k s = match s with
                          | String c (String d s2) =>
                              if Char.isword c && Ascii.eqb "." d
                              then Some (EmptyString, Str.lstrip s2) else None
                          | _ => None
                          end).
  { intros [|c [|d s2]]; unfold k; simpl; [done|by destruct (Char.isword c)|].
    destruct (Char.isword c); simpl; [|done].
    destruct (Ascii.eqb "." d); simpl; [|done].
    pose proof (greedy_longest (λ s, Some (EmptyString, s)) s2 _ eq_refl) as Hg.
    destruct (Re.greedy _ _ s2) as [[t [g rest]]|]; simpl in *; [|done].
    by injection Hg as -> ->. }
  change (Re.match_here (Re.star Char.isspace :: ?ps) s)
    with (match Re.greedy Char.isspace k s with
          | Some (t, (g, rest)) => Some (g, rest)
          | None => None
          end).
  unfold initial_at. destruct (k (Str.lstrip s)) as [[g rest]|] eqn:Hks.
  - pose proof (greedy_longest k s _ Hks) as Hg.
    destruct (Re.greedy Char.isspace k s) as [[t [g' rest']]|]; simpl in *; [|done].
    injection Hg as -> ->. rewrite Hk in Hks.
    destruct (Str.lstrip s) as [|c [|d s2]]; [done..|].
    destruct (Char.isword c && Ascii.eqb "." d); [|done]. by injection Hks as <- <-.
  - rewrite greedy_none; [|..|done].
    + rewrite Hk in Hks. destruct (Str.lstrip s) as [|c [|d s2]]; [done..|].
      by destruct (Char.isword c && Ascii.eqb "." d).
    + intros c s' Hc. rewrite Hk. destruct s' as [|d s2]; [done|].
      destruct (Char.isword c) eqn:Hw; [|done].
      apply isword_not_isspace in Hw. congruence.
Qed.

(** *** The text a match leaves *)

Lemma sdrop_add a b s : sdrop (a + b) s = sdrop b (sdrop a s).
Proof.
  revert s. induction a as [|a IH]; intros s; [done|].
  destruct s as [|c s]; simpl; [by destruct b|]. apply IH.
Qed.

Lemma lstrip_suffix s :
  ∃ n, sdrop n s = Str.lstrip s
       ∧ String.length s = n + String.length (Str.lstrip s).
Proof.
  induction s as [|c s (n & Hd & Hl)]; [by exists 0|]. simpl.
  destruct (Char.isspace c).
  - exists (S n). simpl. split; [done|lia].
  - by exists 0.
Qed.

Lemma initial_at_Some s rest :
  initial_at s = Some rest →
  starts_space rest = false
  ∧ ∃ n, sdrop (2 + n) s = rest ∧ String.length s = 2 + n + String.length rest.
Proof.
  unfold initial_at. destruct (lstrip_suffix s) as (n1 & Hd1 & Hl1).
  destruct (Str.lstrip s) as [|c [|d s2]]; [done..|].
  destruct (Char.isword c && Ascii.eqb "." d); [|done]. intros [= <-].
  split; [apply lstrip_starts|].
  destruct (lstrip_suffix s2) as (n2 & Hd2 & Hl2).
  exists (n1 + n2). split.
  - replace (2 + (n1 + n2)) with (n1 + (2 + n2)) by lia.
    rewrite sdrop_add, Hd1. done.
  - simpl in Hl1. lia.
Qed.

Lemma initial_at_space c s :
  Char.isspace c = true → initial_at (String c s) = initial_at s.
Proof. unfold initial_at. simpl. by intros ->. Qed.

Lemma initial_at_word c s :
  Char.isword c && starts_dot s = true → is_Some (initial_at (String c s)).
Proof.
  intros [Hw Hd]%andb_true_iff. unfold initial_at. simpl.
  rewrite (isword_not_isspace _ Hw). destruct s as [|d s2]; [done|].
  simpl in Hd. rewrite Hw, Hd. simpl. eauto.
Qed.

Lemma has_initial_lstrip s :
  has_initial (Str.lstrip s) = true → has_initial s = true.
Proof.
  induction s as [|c s IH]; [done|]. simpl.
  destruct (Char.isspace c); [|done].
  intros Hs. rewrite (IH Hs). apply orb_true_r.
Qed.

Lemma initial_at_has_initial s :
  is_Some (initial_at s) → has_initial s = true.
Proof.
  intros [rest Hrest]. apply has_initial_lstrip. unfold initial_at in Hrest.
  destruct (Str.lstrip s) as [|c [|d s2]]; [done..|].
  destruct (Char.isword c && Ascii.eqb "." d) eqn:Hcd; [|done].
  simpl. simpl in Hcd. by rewrite Hcd.
Qed.

(** *** [strip_initial.sub] *)

Lemma scrub_match c s rest :
  initial_at (String c s) = Some rest →
  ∃ k, scrub 0 (String c s) = scrub k s ∧ sdrop k s = rest.
Proof.
  intros Hrest. cbn [Re.sub_go]. rewrite match_strip_initial, Hrest.
  apply initial_at_Some in Hrest as (_ & n & Hd & Hl).
  unfold Re.consumed. rewrite Hl. cbn [fmap option_fmap option_map].
  replace (2 + n + String.length rest - String.length rest) with (S (S n)) by lia.
  by exists (S n).
Qed.

Lemma scrub_no_match c s :
  initial_at (String c s) = None →
  scrub 0 (String c s) = String c (scrub 0 s).
Proof.
  intros Hnone. cbn [Re.sub_go]. by rewrite match_strip_initial, Hnone.
Qed.

Lemma scrub_length skip s : String.length (scrub skip s) ≤ String.length s.
Proof.
  revert skip. induction s as [|c s IH]; intros skip; [done|].
  destruct skip as [|k]; [|cbn [Re.sub_go]; simpl; by rewrite IH; lia].
  destruct (initial_at (String c s)) as [rest|] eqn:Hm.
  - destruct (scrub_match _ _ _ Hm) as (k & -> & _). simpl.
    specialize (IH k). lia.
  - rewrite scrub_no_match by done. simpl. specialize (IH 0). lia.
Qed.

Lemma scrub_all P skip s :
  all_chars P s = true → all_chars P (scrub skip s) = true.
Proof.
  revert skip. induction s as [|c s IH]; intros skip; [done|].
  cbn [all_chars]. intros [Hc Hs]%andb_true_iff.
  destruct skip as [|k]; [|cbn [Re.sub_go]; by apply IH].
  destruct (initial_at (String c s)) as [rest|] eqn:Hm.
  - destruct (scrub_match _ _ _ Hm) as (k & -> & _). by apply IH.
  - rewrite scrub_no_match by done. cbn [all_chars]. by rewrite Hc, IH.
Qed.

Lemma scrub_starts skip s :
  starts_space (sdrop skip s) = false → starts_space (scrub skip s) = false.
Proof.
  revert skip. induction s as [|c s IH]; intros skip; [done|].
  destruct skip as [|k]; [|cbn [Re.sub_go sdrop]; by apply IH].
  cbn [sdrop]. intros Hc.
  destruct (initial_at (String c s)) as [rest|] eqn:Hm.
  - destruct (scrub_match _ _ _ Hm) as (k & -> & Hk). apply IH. rewrite Hk.
    by apply initial_at_Some in Hm as [? _].
  - by rewrite scrub_no_match.
Qed.

Lemma ends_space_tail c s :
  ends_space (String c s) = false → s ≠ EmptyString → ends_space s = false.
Proof. by destruct s. Qed.

Lemma scrub_ends skip s :
  ends_space s = false → ends_space (scrub skip s) = false.
Proof.
  revert skip. induction s as [|c s IH]; intros skip He; [done|].
  assert (Htail : ∀ k, ends_space (scrub k s) = false).
  { intros k. destruct s as [|c' s']; [done|].
    apply IH. by apply (ends_space_tail c). }
  destruct skip as [|k]; [|cbn [Re.sub_go]; apply Htail].
  destruct (initial_at (String c s)) as [rest|] eqn:Hm.
  - destruct (scrub_match _ _ _ Hm) as (k & -> & _). apply Htail.
  - rewrite scrub_no_match by done.
    destruct (scrub 0 s) as [|c' t] eqn:Hs.
    2: { pose proof (Htail 0) as H0. by rewrite Hs in H0. }
    simpl. destruct s as [|c' s']; [done|].
    destruct (initial_at (String c' s')) as [rest|] eqn:Hm'.
    + destruct (Char.isspace c) eqn:Hc; [|done].
      rewrite initial_at_space in Hm by done. congruence.
    + by rewrite scrub_no_match in Hs.
Qed.

Lemma scrub_fixed s : has_initial s = false → scrub 0 s = s.
Proof.
  induction s as [|c s IH]; [done|]. intros Hs.
  destruct (initial_at (String c s)) as [rest|] eqn:Hm.
  - rewrite initial_at_has_initial in Hs by eauto. done.
  - rewrite scrub_no_match by done. simpl in Hs.
    apply orb_false_iff in Hs as [_ Hs]. by rewrite IH.
Qed.

Lemma scrub_shrinks s :
  has_initial s = true → String.length (scrub 0 s) < String.length s.
Proof.
  induction s as [|c s IH]; [done|]. intros Hs.
  destruct (initial_at (String c s)) as [rest|] eqn:Hm.
  - destruct (scrub_match _ _ _ Hm) as (k & -> & _).
    pose proof (scrub_length k s). simpl. lia.
  - rewrite scrub_no_match by done. simpl in *.
    apply orb_true_iff in Hs as [Hw|Hs].
    + apply initial_at_word in Hw as [? ?]. congruence.
    + specialize (IH Hs). lia.
Qed.

(** *** Normalising twice *)

Lemma final_split_all P s :
  all_chars P s = true → all_chars P (Str.final (Str.split "," s)) = true.
Proof.
  induction s as [|c s IH]; [done|]. cbn [all_chars].
  intros [Hc Hs]%andb_true_iff. rewrite split_comma_cons.
  pose proof (split_comma_nonempty s) as Hne. specialize (IH Hs).
  destruct (Ascii.eqb "," c).
  - by rewrite final_cons.
  - destruct (Str.split "," s) as [|h [|h' t]]; [done| |exact IH].
    unfold Str.final in *. cbn [List.last all_chars] in *. by rewrite Hc, IH.
Qed.

Lemma no_dot_no_initial s :
  all_chars (is_not ".") s = true → has_initial s = false.
Proof.
  induction s as [|c s IH]; [done|]. cbn [all_chars has_initial].
  intros [_ Hs]%andb_true_iff. rewrite (IH Hs), orb_false_r.
  destruct s as [|d s]; [apply andb_false_r|].
  cbn [all_chars] in Hs. apply andb_true_iff in Hs as [Hd _].
  unfold is_not in Hd. apply negb_true_iff in Hd. simpl. rewrite Hd.
  apply andb_false_r.
Qed.

(** A normalised name has no comma and no capital, and no white space at
    either end. *)
Lemma normalize_shape s :
  all_chars (is_not ",") (normalize s) = true
  ∧ all_chars lowered (normalize s) = true
  ∧ starts_space (normalize s) = false
  ∧ ends_space (normalize s) = false.
Proof.
  unfold normalize, Re.sub_empty.
  set (t := Str.final (Str.split "," (Str.strip s))).
  destruct (strip_trimmed t) as [Hst Hen]. split_and!.
  - apply scrub_all, lower_all_not; [apply lower_comma|].
    apply strip_all, final_split_comma.
  - apply scrub_all, lower_lowered.
  - apply scrub_starts. simpl. by rewrite lower_starts.
  - apply scrub_ends. by rewrite lower_ends.
Qed.

Lemma normalize_normalized r :
  all_chars (is_not ",") r = true →
  all_chars lowered r = true →
  starts_space r = false →
  ends_space r = false →
  normalize r = Re.sub_empty strip_initial r.
Proof.
  intros Hcomma Hlow Hst Hen. unfold normalize.
  rewrite (strip_id r), split_comma_none by done.
  unfold Str.final. cbn [List.last]. by rewrite strip_id, lower_id.
Qed.

(** C6, as stated, fails: removing an initial can bring a word character
    next to a full stop. *)
Lemma normalize_not_idempotent :
  normalize "ab.." = "a."
  ∧ normalize (normalize "ab..") = ""
  ∧ normalize (normalize "ab..") ≠ normalize "ab..".
Proof. split_and!; [reflexivity|reflexivity|by vm_compute]. Qed.

(** C6, amended. Normalising a normalised name only removes initials
    again: it gives the same name exactly when the name has no word
    character immediately followed by a full stop, which is the case for
    every raw name without a full stop. *)
Theorem normalize_twice (s : string) :
  normalize (normalize s) = Re.sub_empty strip_initial (normalize s)
  ∧ (normalize (normalize s) = normalize s ↔ has_initial (normalize s) = false)
  ∧ (all_chars (is_not ".") s = true → normalize (normalize s) = normalize s).
Proof.
  destruct (normalize_shape s) as (Hcomma & Hlow & Hst & Hen).
  pose proof (normalize_normalized _ Hcomma Hlow Hst Hen) as Htwice.
  assert (Hiff : normalize (normalize s) = normalize s
                 ↔ has_initial (normalize s) = false).
  { rewrite Htwice. unfold Re.sub_empty. split.
    - intros Heq. destruct (has_initial (normalize s)) eqn:Hi; [|done].
      apply scrub_shrinks in Hi. rewrite Heq in Hi. lia.
    - apply scrub_fixed. }
  split_and!; [done|done|].
  intros Hdot. apply Hiff, no_dot_no_initial.
  unfold normalize, Re.sub_empty.
  apply scrub_all, lower_all_not; [apply lower_dot|].
  by apply strip_all, final_split_all, strip_all.
Qed.

Lemma normalize_twice_witness :
  normalize (normalize "Doe, John") = normalize "Doe, John".
Proof. apply (normalize_twice "Doe, John"). reflexivity. Defined.

(** * Further properties *)

(** ** What the two patterns capture *)

Section Capture.
Context {R : Type} (p : ascii → bool) (k : string → option R).

Lemma lazy_within s t r : Re.lazy p k s = Some (t, r) → all_chars p t = true.
Proof.
  revert t r. induction s as [|c s IH]; intros t r; simpl.
  - destruct (k EmptyString); [|done]. by intros [= <- <-].
  - destruct (k (String c s)); [by intros [= <- <-]|].
    destruct (p c) eqn:Hc; [|done].
    destruct (Re.lazy p k s) as [[t' r']|]; [|done]. intros [= <- <-].
    cbn [all_chars]. by rewrite Hc, (IH t' r').
Qed.

Lemma lazy_avoids x s t r :
  (∀ s', is_Some (k (String x s'))) →
  Re.lazy p k s = Some (t, r) → all_chars (is_not x) t = true.
Proof.
  intros Hx. revert t r. induction s as [|c s IH]; intros t r; simpl.
  - destruct (k EmptyString); [|done]. by intros [= <- <-].
  - destruct (k (String c s)) eqn:Hk; [by intros [= <- <-]|].
    destruct (p c); [|done].
    destruct (Re.lazy p k s) as [[t' r']|]; [|done]. intros [= <- <-].
    cbn [all_chars]. rewrite (IH t' r') by done. rewrite andb_true_r.
    unfold is_not. destruct (Ascii.eqb x c) eqn:Hc; [|done].
    apply Ascii.eqb_eq in Hc as <-. destruct (Hx s) as [? ?]. congruence.
Qed.

Lemma greedy_from s t r : Re.greedy p k s = Some (t, r) → ∃ s', k s' = Some r.
Proof.
  revert t r. induction s as [|c s IH]; intros t r; simpl.
  - destruct (k EmptyString) eqn:Hk; [|done]. intros [= <- <-]. eauto.
  - destruct (p c).
    + destruct (Re.greedy p k s) as [[t' r']|].
      * intros [= <- <-]. by eapply IH.
      * destruct (k (String c s)) eqn:Hk; [|done]. intros [= <- <-]. eauto.
    + destruct (k (String c s)) eqn:Hk; [|done]. intros [= <- <-]. eauto.
Qed.

Lemma lazy_from s t r : Re.lazy p k s = Some (t, r) → ∃ s', k s' = Some r.
Proof.
  revert t r. induction s as [|c s IH]; intros t r; simpl.
  - destruct (k EmptyString) eqn:Hk; [|done]. intros [= <- <-]. eauto.
  - destruct (k (String c s)) eqn:Hk; [intros [= <- <-]; eauto|].
    destruct (p c); [|done].
    destruct (Re.lazy p k s) as [[t' r']|]; [|done].
    intros [= <- <-]. by eapply IH.
Qed.

Lemma repeat_from q s t r :
  Re.repeat p k q s = Some (t, r) → ∃ s', k s' = Some r.
Proof.
  destruct q; simpl.
  - unfold Re.once. destruct s as [|c s]; [done|]. destruct (p c); [|done].
    destruct (k s) eqn:Hk; [|done]. intros [= <- <-]. eauto.
  - apply greedy_from.
  - unfold Re.plus. destruct s as [|c s]; [done|]. destruct (p c); [|done].
    destruct (Re.greedy p k s) as [[t' r']|] eqn:Hg; [|done].
    intros [= <- <-]. by eapply greedy_from.
  - apply lazy_from.
Qed.

End Capture.

(** The group of a pattern that ends in [(p*?)x]: characters of [p], none
    of them [x]. *)
Lemma match_here_group pre p x s g rest :
  Forall (λ pc, Re.pgroup pc = false) pre →
  Re.match_here (pre ++ [Re.group_lazy p; Re.lit x]) s = Some (g, rest) →
  all_chars p g = true ∧ all_chars (is_not x) g = true.
Proof.
  intros Hpre. revert s. induction Hpre as [|pc pre Hpc Hpre IH]; intros s.
  - cbn [app Re.match_here Re.group_lazy Re.pset Re.pquant Re.pgroup Re.repeat].
    destruct (Re.lazy p _ s) as [[t [g' rest']]|] eqn:Hl; [|done].
    intros [= <- <-]. split; [by eapply lazy_within|].
    eapply lazy_avoids; [|exact Hl]. intros s'. simpl.
    rewrite Ascii.eqb_refl. simpl. eauto.
  - rewrite <-app_comm_cons. cbn [Re.match_here]. rewrite Hpc.
    destruct (Re.repeat _ _ _ s) as [[t [g' rest']]|] eqn:Hr; [|done].
    intros [= <- <-]. apply repeat_from in Hr as [s' Hs']. by eapply IH.
Qed.

Lemma findall_go_Forall (P : string → Prop) ps :
  (∀ s g rest, Re.match_here ps s = Some (g, rest) → P g) →
  ∀ s skip, Forall P (Re.findall_go ps skip s).
Proof.
  intros HP. induction s as [|c s IH]; intros skip; simpl.
  - destruct skip; [|constructor].
    destruct (Re.match_here ps EmptyString) as [[g rest]|] eqn:Hm; [|constructor].
    repeat constructor. by eapply HP.
  - destruct skip; [|apply IH].
    destruct (Re.match_here ps (String c s)) as [[g rest]|] eqn:Hm; [|apply IH].
    constructor; [by eapply HP|apply IH].
Qed.

Lemma findall_go_without x ps s skip :
  all_chars (is_not x) s = true → Re.findall_go (Re.lit x :: ps) skip s = [].
Proof.
  revert skip. induction s as [|c s IH]; intros skip; cbn [all_chars].
  - intros _. by destruct skip.
  - intros [Hc Hs]%andb_true_iff. cbn [Re.findall_go].
    destruct skip; [|by apply IH].
    cbn [Re.match_here Re.lit Re.pset Re.pquant Re.repeat Re.once].
    unfold is_not in Hc. apply negb_true_iff in Hc. rewrite Hc. by apply IH.
Qed.

Lemma replace_all P a b s :
  P b = true → all_chars P s = true → all_chars P (Str.replace a b s) = true.
Proof.
  intros Hb. induction s as [|c s IH]; [done|]. cbn [all_chars Str.replace].
  intros [Hc Hs]%andb_true_iff. rewrite (IH Hs), andb_true_r.
  by destruct (Ascii.eqb c a).
Qed.

Lemma replace_removes a b s :
  a ≠ b → all_chars (is_not a) (Str.replace a b s) = true.
Proof.
  intros Hab. induction s as [|c s IH]; [done|]. cbn [all_chars Str.replace].
  rewrite IH, andb_true_r. unfold is_not.
  destruct (Ascii.eqb c a) eqn:Hc; apply negb_true_iff, Ascii.eqb_neq.
  - done.
  - apply Ascii.eqb_neq in Hc. congruence.
Qed.

Lemma Forall_zip {A B} (P : A → Prop) (Q : B → Prop) l k :
  Forall P l → Forall Q k → Forall (λ xy, P xy.1 ∧ Q xy.2) (zip l k).
Proof.
  intros Hl. revert k. induction Hl as [|x l Hx Hl IH]; intros k Hk; [constructor|].
  destruct Hk as [|y k Hy Hk]; [constructor|]. simpl. constructor; [done|].
  by apply IH.
Qed.

(** X1. In every record [find_gender] pairs, the citation key has no comma
    and no line break, and the author field has no closing brace and no
    line break. *)
Theorem records_fields_clean (bibstr : string) :
  Forall (λ rec : string * string,
            (all_chars (is_not ",") rec.1 = true
             ∧ all_chars Char.not_newline rec.1 = true)
            ∧ (all_chars (is_not "}") rec.2 = true
               ∧ all_chars (is_not Char.newline) rec.2 = true))
    (records bibstr).
Proof.
  unfold records.
  apply (Forall_zip
           (λ k, all_chars (is_not ",") k = true
                 ∧ all_chars Char.not_newline k = true)
           (λ a, all_chars (is_not "}") a = true
                 ∧ all_chars (is_not Char.newline) a = true)).
  - apply findall_go_Forall. intros s g rest Hm.
    apply (match_here_group [Re.lit "@"; Re.some Char.isword; Re.lit "{"]
             Char.not_newline "," s g rest) in Hm; [tauto|].
    by repeat constructor.
  - apply Forall_fmap. eapply Forall_impl.
    + apply (findall_go_Forall (λ g, all_chars (is_not "}") g = true)).
      intros s g rest Hm.
      apply (match_here_group
               (Re.lits "author" ++
                [Re.one Char.isspace; Re.lit "="; Re.some Char.isspace; Re.lit "{"])
               Char.any "}" s g rest) in Hm; [tauto|].
      by repeat constructor.
    + intros g Hg. simpl. split; [by apply replace_all|].
      by apply replace_removes.
Qed.

(** X2. A text without the character "@" has no record at all. *)
Theorem records_without_header (bibstr : string) :
  all_chars (is_not "@") bibstr = true → records bibstr = [].
Proof.
  intros Hat. unfold records, Re.findall, bib_id_re.
  by rewrite findall_go_without.
Qed.

Lemma records_without_header_witness :
  records "author = {Doe, John}" = [].
Proof. apply (records_without_header "author = {Doe, John}"). reflexivity. Defined.

(** ** What [find_gender] returns *)

(** X3. The set [find_gender] returns as missed holds exactly the
    normalised first and last names, over all paired records, that the
    cache has no entry for. *)
Theorem missed_exactly
    (bibstr : string) (cached : option (gmap string string)) (w : world)
    (c : gmap string string) :
  effective cached w = Some c →
  ∃ data missed,
    find_gender bibstr cached w = Return (data, missed) w
    ∧ ∀ n, n ∈ missed
           ↔ c !! n = None
             ∧ ∃ bid authors, (bid, authors) ∈ records bibstr
                 ∧ (n = first_name authors ∨ n = last_name authors).
Proof.
  intros Heff. rewrite (find_gender_run _ _ _ _ Heff).
  destruct (find_gender_loop c (records bibstr)) as [data missed] eqn:Hloop.
  exists data, missed. split; [done|]. intros n.
  change missed with (data, missed).2. rewrite <-Hloop.
  apply find_gender_loop_missed.
Qed.

Lemma missed_exactly_witness :
  ∃ data missed,
    find_gender given_names_bib None (World (Holds given_names_cache) None [])
    = Return (data, missed) (World (Holds given_names_cache) None [])
    ∧ ∀ n, n ∈ missed
           ↔ given_names_cache !! n = None
             ∧ ∃ bid authors, (bid, authors) ∈ records given_names_bib
                 ∧ (n = first_name authors ∨ n = last_name authors).
Proof.
  apply (missed_exactly given_names_bib None
           (World (Holds given_names_cache) None []) given_names_cache).
  reflexivity.
Defined.

(** X4. Every entry of the mapping [find_gender] returns is the resolution
    of a paired record with that citation key: each author's label is what
    the cache holds for the name, and an author without a label is in the
    missed set. *)
Theorem data_labels_from_cache
    (bibstr : string) (cached : option (gmap string string)) (w : world)
    (c : gmap string string) :
  effective cached w = Some c →
  ∃ data missed,
    find_gender bibstr cached w = Return (data, missed) w
    ∧ ∀ bid r, (bid, r) ∈ data →
        (∃ authors, (bid, authors) ∈ records bibstr ∧ r = resolve c authors)
        ∧ r.1.2 = c !! r.1.1 ∧ r.2.2 = c !! r.2.1
        ∧ (r.1.2 = None → r.1.1 ∈ missed)
        ∧ (r.2.2 = None → r.2.1 ∈ missed).
Proof.
  intros Heff. rewrite (find_gender_run _ _ _ _ Heff).
  destruct (find_gender_loop c (records bibstr)) as [data missed] eqn:Hloop.
  exists data, missed. split; [done|]. intros bid r Hin.
  assert (Hdata : data = assign_all (resolve c) (records bibstr) [])
    by (by rewrite <-find_gender_loop_data, Hloop).
  rewrite Hdata in Hin.
  apply assign_all_elem in Hin as [[]%elem_of_nil|(authors & Hrec & ->)].
  assert (Hmiss : ∀ n, c !! n = None →
            n = first_name authors ∨ n = last_name authors → n ∈ missed).
  { intros n Hn Hor. change missed with (data, missed).2. rewrite <-Hloop.
    apply find_gender_loop_missed. split; [done|]. by exists bid, authors. }
  split_and!; [by exists authors|done|done|..]; simpl; intros Hnone.
  - apply Hmiss; [done|by left].
  - apply Hmiss; [done|by right].
Qed.

Lemma data_labels_from_cache_witness :
  ∃ data missed,
    find_gender given_names_bib None (World (Holds given_names_cache) None [])
    = Return (data, missed) (World (Holds given_names_cache) None [])
    ∧ ∀ bid r, (bid, r) ∈ data →
        (∃ authors, (bid, authors) ∈ records given_names_bib
                    ∧ r = resolve given_names_cache authors)
        ∧ r.1.2 = given_names_cache !! r.1.1
        ∧ r.2.2 = given_names_cache !! r.2.1
        ∧ (r.1.2 = None → r.1.1 ∈ missed)
        ∧ (r.2.2 = None → r.2.1 ∈ missed).
Proof.
  apply (data_labels_from_cache given_names_bib None
           (World (Holds given_names_cache) None []) given_names_cache).
  reflexivity.
Defined.

(** X5. When several paired records carry the same citation key, the entry
    under that key holds the resolution of the last of them. *)
Theorem last_record_wins
    (bibstr : string) (cached : option (gmap string string)) (w : world)
    (c : gmap string string) (i : nat) (bid authors : string) :
  effective cached w = Some c →
  records bibstr !! i = Some (bid, authors) →
  (∀ j authors', i < j → records bibstr !! j ≠ Some (bid, authors')) →
  ∃ data missed,
    find_gender bibstr cached w = Return (data, missed) w
    ∧ Dict.get bid data = Some (resolve c authors).
Proof.
  intros Heff Hi Hlast. rewrite (find_gender_run _ _ _ _ Heff).
  destruct (find_gender_loop c (records bibstr)) as [data missed] eqn:Hloop.
  exists data, missed. split; [done|].
  change data with (data, missed).1.
  rewrite <-Hloop, find_gender_loop_data.
  by apply (assign_all_get_last _ _ _ i).
Qed.

Lemma last_record_wins_witness :
  ∃ data missed,
    find_gender duplicate_bib None (World Absent None [])
    = Return (data, missed) (World Absent None [])
    ∧ Dict.get "lee2019" data = Some (resolve ∅ "Kim, Bo").
Proof.
  apply (last_record_wins duplicate_bib None (World Absent None []) ∅ 1).
  - reflexivity.
  - reflexivity.
  - intros j authors' Hj. destruct j as [|[|j]]; [lia|lia|]. by vm_compute.
Defined.

(** X6. Every name [find_gender] stores or reports as missed is free of
    commas and capitals and has no white space at either end. *)
Theorem names_trimmed_lowercase
    (bibstr : string) (cached : option (gmap string string)) (w : world)
    (c : gmap string string) :
  effective cached w = Some c →
  ∃ data missed,
    find_gender bibstr cached w = Return (data, missed) w
    ∧ (∀ bid r, (bid, r) ∈ data →
         trimmed_lowercase r.1.1 ∧ trimmed_lowercase r.2.1)
    ∧ (∀ n, n ∈ missed → trimmed_lowercase n).
Proof.
  intros Heff. rewrite (find_gender_run _ _ _ _ Heff).
  destruct (find_gender_loop c (records bibstr)) as [data missed] eqn:Hloop.
  exists data, missed. split_and!; [done|..].
  - intros bid r Hin.
    assert (Hdata : data = assign_all (resolve c) (records bibstr) [])
      by (by rewrite <-find_gender_loop_data, Hloop).
    rewrite Hdata in Hin.
    apply assign_all_elem in Hin as [[]%elem_of_nil|(authors & _ & ->)].
    split; apply normalize_shape.
  - intros n Hn. change missed with (data, missed).2 in Hn.
    rewrite <-Hloop in Hn.
    apply find_gender_loop_missed in Hn as (_ & bid & authors & _ & [->| ->]);
      apply normalize_shape.
Qed.

Lemma names_trimmed_lowercase_witness :
  ∃ data missed,
    find_gender given_names_bib None (World (Holds given_names_cache) None [])
    = Return (data, missed) (World (Holds given_names_cache) None [])
    ∧ (∀ bid r, (bid, r) ∈ data →
         trimmed_lowercase r.1.1 ∧ trimmed_lowercase r.2.1)
    ∧ (∀ n, n ∈ missed → trimmed_lowercase n).
Proof.
  apply (names_trimmed_lowercase given_names_bib None
           (World (Holds given_names_cache) None []) given_names_cache).
  reflexivity.
Defined.

Lemma split_absent sep s : contains sep s = false → Str.split sep s = [s].
Proof.
  unfold Str.split. induction s as [|c s IH]; [done|].
  cbn [contains Str.split_go]. intros [Hp Hs]%orb_false_iff.
  by rewrite Hp, (IH Hs).
Qed.

(** X7. An author field in which " and" does not occur is resolved as one
    author standing first and last, under the normalised name of the whole
    field; with a cache of "M" and "F" entries such a record falls in MM,
    FF or NoneNone. *)
Theorem single_author_record (c : gmap string string) (authors : string) :
  contains " and" authors = false →
  resolve c authors
  = ((normalize authors, c !! normalize authors),
     (normalize authors, c !! normalize authors))
  ∧ (cache_ok c → category_of (resolve c authors) ∈ ["MM"; "FF"; "NoneNone"]).
Proof.
  intros Habs. unfold resolve. rewrite (split_absent _ _ Habs).
  unfold Str.first, Str.final. cbn [hd List.last]. split; [done|].
  intros Hc. unfold category_of. simpl.
  destruct (c !! normalize authors) as [g|] eqn:Hg; simpl.
  - destruct (Hc _ _ Hg) as [-> | ->]; set_solver.
  - set_solver.
Qed.

Lemma single_author_record_witness :
  resolve {["ann" := "F"]} "Lee, Ann"
  = ((normalize "Lee, Ann", ({["ann" := "F"]} : gmap string string) !! normalize "Lee, Ann"),
     (normalize "Lee, Ann", ({["ann" := "F"]} : gmap string string) !! normalize "Lee, Ann"))
  ∧ (cache_ok {["ann" := "F"]} →
     category_of (resolve {["ann" := "F"]} "Lee, Ann") ∈ ["MM"; "FF"; "NoneNone"]).
Proof. apply (single_author_record {["ann" := "F"]} "Lee, Ann"). reflexivity. Defined.

(** ** What [query_names] does to the world *)

(** The loop leaves the cache file and the credential as they are, also
    when it raises; when it returns it has printed one line per name, and
    every entry of its cache was there before or is "F" or "M" under one
    of the names. *)
Lemma query_loop_outcome requests_get api_key misses :
  ∀ cached w,
  let o := query_loop requests_get api_key misses cached w in
  names_cache (world_of o) = names_cache w
  ∧ GENDER_API_KEY (world_of o) = GENDER_API_KEY w
  ∧ ∀ c' w', o = Return c' w' →
      stdout w' = stdout w ++ ((λ n, "Querying for " +:+ n) <$> misses)
      ∧ ∀ n v, c' !! n = Some v →
          cached !! n = Some v ∨ (n ∈ misses ∧ (v = "F" ∨ v = "M")).
Proof.
  induction misses as [|n0 misses IH]; intros cached w.
  { simpl. split_and!; [done|done|]. intros c' w' [= <- <-].
    split; [by rewrite app_nil_r|]. auto. }
  cbv zeta. rewrite query_loop_cons. cbv zeta.
  set (w1 := World (names_cache w) (GENDER_API_KEY w)
               (stdout w ++ ["Querying for " +:+ n0])).
  assert (Hkeep : ∀ cached1,
    (∀ n v, cached1 !! n = Some v →
       cached !! n = Some v ∨ (n = n0 ∧ (v = "F" ∨ v = "M"))) →
    let o := query_loop requests_get api_key misses cached1 w1 in
    names_cache (world_of o) = names_cache w
    ∧ GENDER_API_KEY (world_of o) = GENDER_API_KEY w
    ∧ ∀ c' w', o = Return c' w' →
        stdout w' = stdout w ++ ((λ n, "Querying for " +:+ n) <$> n0 :: misses)
        ∧ ∀ n v, c' !! n = Some v →
            cached !! n = Some v ∨ (n ∈ n0 :: misses ∧ (v = "F" ∨ v = "M"))).
  { intros cached1 Hc1. destruct (IH cached1 w1) as (Hf & Hk & Hret).
    split_and!; [done|done|]. intros c' w' Ho.
    destruct (Hret c' w' Ho) as [Hout Hent]. split.
    - rewrite Hout. simpl. by rewrite <-app_assoc.
    - intros n v Hv. destruct (Hent n v Hv) as [Hv1|[Hn Hfm]].
      + destruct (Hc1 n v Hv1) as [?|[-> ?]]; [by left|]. right.
        split; [by left|done].
      + right. split; [by right|done]. }
  destruct (ok _); [|apply Hkeep; auto].
  destruct (json _) as [[[a|] g]|]; cbn [accuracy gender]; [|by split_and!..].
  destruct (60 <=? a)%Z; [|apply Hkeep; auto].
  destruct g as [g|]; [|by split_and!].
  apply Hkeep. intros n v. rewrite lookup_insert.
  destruct (decide (n0 = n)) as [<-|Hne]; [|auto].
  intros [= <-]. right. split; [done|]. unfold entry. destruct (decide _); auto.
Qed.

(** X8. A cache file whose text is not JSON makes [find_gender] (called
    without a cache), [query_names] and [main] raise [JSONDecodeError]
    before anything is printed or written; [find_gender] called with a
    cache does not read the file. *)
Theorem not_json_cache_raises
    (requests_get : string → response) (bibstr : string)
    (nameset : gset string) (c : gmap string string) (w : world) :
  names_cache w = NotJSON →
  find_gender bibstr None w = Raise JSONDecodeError w
  ∧ query_names requests_get nameset w = Raise JSONDecodeError w
  ∧ main requests_get bibstr w = Raise JSONDecodeError w
  ∧ find_gender bibstr (Some c) w = Return (find_gender_loop c (records bibstr)) w.
Proof.
  destruct w as [f key out]. simpl. intros ->.
  assert (Hfg : find_gender bibstr None (World NotJSON key out)
                = Raise JSONDecodeError (World NotJSON key out)) by done.
  split_and!; [done|done| |done].
  unfold main, bind at 1. by rewrite Hfg.
Qed.

Lemma not_json_cache_raises_witness :
  find_gender example_bib None (World NotJSON None [])
  = Raise JSONDecodeError (World NotJSON None [])
  ∧ query_names no_service {["smith"]} (World NotJSON None [])
    = Raise JSONDecodeError (World NotJSON None [])
  ∧ main no_service example_bib (World NotJSON None [])
    = Raise JSONDecodeError (World NotJSON None [])
  ∧ find_gender example_bib (Some example_cache) (World NotJSON None [])
    = Return (find_gender_loop example_cache (records example_bib))
        (World NotJSON None []).
Proof.
  apply (not_json_cache_raises no_service example_bib {["smith"]} example_cache
           (World NotJSON None [])).
  reflexivity.
Defined.

(** X9. When the cache has an entry for every name asked, [query_names]
    returns the cache it loaded and does nothing else, with or without a
    credential. *)
Theorem query_names_nothing_missing
    (requests_get : string → response) (nameset : gset string) (w : world)
    (c : gmap string string) :
  loaded w = Some c →
  nameset ⊆ dom c →
  query_names requests_get nameset w = Return c w.
Proof.
  intros Hload Hsub. rewrite (query_names_loaded _ _ _ _ Hload).
  assert (Hnil : misses_of nameset c = []).
  { apply misses_of_nil, elem_of_equiv_empty_L. intros n.
    rewrite elem_of_difference. intros [Hn Hout]. by apply Hout, Hsub. }
  by rewrite Hnil.
Qed.

Lemma query_names_nothing_missing_witness :
  query_names example_service {["doe"; "roe"]} keyed_world
  = Return example_cache keyed_world.
Proof.
  apply (query_names_nothing_missing example_service {["doe"; "roe"]}
           keyed_world example_cache).
  - reflexivity.
  - by vm_compute.
Defined.

(** X10. A run of [query_names] with a credential that returns has printed
    one line "Querying for n" per name asked and absent from the cache it
    loaded, each name once, in ascending order of the names. *)
Theorem query_names_asks_in_order
    (requests_get : string → response) (nameset : gset string) (w w' : world)
    (api_key : string) (c c' : gmap string string) :
  loaded w = Some c →
  GENDER_API_KEY w = Some api_key →
  query_names requests_get nameset w = Return c' w' →
  ∃ misses,
    stdout w' = stdout w ++ ((λ n, "Querying for " +:+ n) <$> misses)
    ∧ Sorted String.le misses
    ∧ NoDup misses
    ∧ ∀ n, n ∈ misses ↔ n ∈ nameset ∧ c !! n = None.
Proof.
  intros Hload Hkey. rewrite (query_names_loaded _ _ _ _ Hload), Hkey.
  intros Hrun. exists (misses_of nameset c).
  split_and!; [|apply Sorted_merge_sort, _|apply misses_of_NoDup
               |apply misses_of_elem].
  destruct (misses_of nameset c) as [|n0 l] eqn:Hm.
  - injection Hrun as _ <-. simpl. by rewrite app_nil_r.
  - destruct (query_loop_outcome requests_get api_key (n0 :: l) c w)
      as (_ & _ & Hret).
    destruct (query_loop requests_get api_key (n0 :: l) c w)
      as [c1 w1|e w1] eqn:Hloop; [|done].
    injection Hrun as _ <-. simpl. by apply (Hret c1 w1).
Qed.

Lemma query_names_asks_in_order_witness :
  ∃ misses,
    stdout (World (Holds (<["ana" := "F"]> example_cache)) (Some "secret")
              ["Querying for ana"; "Querying for smith"])
    = stdout keyed_world ++ ((λ n, "Querying for " +:+ n) <$> misses)
    ∧ Sorted String.le misses
    ∧ NoDup misses
    ∧ ∀ n, n ∈ misses
           ↔ n ∈ ({["smith"; "ana"]} : gset string) ∧ example_cache !! n = None.
Proof.
  apply (query_names_asks_in_order example_service {["smith"; "ana"]}
           keyed_world _ "secret" example_cache
           (<["ana" := "F"]> example_cache)).
  - reflexivity.
  - reflexivity.
  - vm_compute. reflexivity.
Defined.

(** X11. When [query_names] raises, the cache file is what it was before
    the call: entries learnt earlier in the same run are not stored. *)
Theorem query_names_raise_keeps_file
    (requests_get : string → response) (nameset : gset string) (w w' : world)
    (e : exn) :
  query_names requests_get nameset w = Raise e w' →
  names_cache w' = names_cache w ∧ GENDER_API_KEY w' = GENDER_API_KEY w.
Proof.
  destruct (loaded w) as [c|] eqn:Hload.
  - rewrite (query_names_loaded _ _ _ _ Hload).
    destruct (misses_of nameset c) as [|n0 l]; [done|].
    destruct (GENDER_API_KEY w) as [api_key|] eqn:Hkey; [|done].
    destruct (query_loop_outcome requests_get api_key (n0 :: l) c w)
      as (Hfile & Hk & _).
    destruct (query_loop requests_get api_key (n0 :: l) c w)
      as [c1 w1|e1 w1]; [done|].
    intros [= _ <-]. simpl in *. by rewrite Hk.
  - unfold loaded in Hload. destruct w as [[| |c0] key out]; try done.
    by intros [= _ <-].
Qed.

Lemma query_names_raise_keeps_file_witness :
  query_names broken_service {["ana"; "bob"]} keyed_world
  = Raise (KeyError "accuracy")
      (World (Holds example_cache) (Some "secret")
         ["Querying for ana"; "Querying for bob"])
  ∧ names_cache
      (World (Holds example_cache) (Some "secret")
         ["Querying for ana"; "Querying for bob"])
    = names_cache keyed_world
  ∧ GENDER_API_KEY
      (World (Holds example_cache) (Some "secret")
         ["Querying for ana"; "Querying for bob"])
    = GENDER_API_KEY keyed_world.
Proof.
  split; [vm_compute; reflexivity|].
  apply (query_names_raise_keeps_file broken_service {["ana"; "bob"]}
           keyed_world _ (KeyError "accuracy")).
  vm_compute. reflexivity.
Defined.

Lemma query_names_return_entries requests_get nameset w w' c c' :
  loaded w = Some c →
  query_names requests_get nameset w = Return c' w' →
  ∀ n v, c' !! n = Some v →
    c !! n = Some v ∨ (n ∈ misses_of nameset c ∧ (v = "F" ∨ v = "M")).
Proof.
  intros Hload. rewrite (query_names_loaded _ _ _ _ Hload). intros Hrun.
  destruct (misses_of nameset c) as [|n0 l] eqn:Hm.
  - injection Hrun as <- _. auto.
  - destruct (GENDER_API_KEY w) as [api_key|]; [|injection Hrun as <- _; auto].
    destruct (query_loop_outcome requests_get api_key (n0 :: l) c w)
      as (_ & _ & Hret).
    destruct (query_loop requests_get api_key (n0 :: l) c w)
      as [c1 w1|e w1] eqn:Hloop; [|done].
    injection Hrun as <- _. by apply (Hret c1 w1).
Qed.

Lemma query_names_return_ok requests_get nameset w w' c c' :
  loaded w = Some c →
  query_names requests_get nameset w = Return c' w' →
  cache_ok c → cache_ok c'.
Proof.
  intros Hload Hrun Hok n v Hv.
  destruct (query_names_return_entries _ _ _ _ _ _ Hload Hrun n v Hv)
    as [Hc|[_ [?|?]]]; [by apply (Hok n)|by right|by left].
Qed.

(** X12. The cache a run of [query_names] returns has entries only under
    names of the loaded cache or names asked, and the entries it did not
    load are "F" or "M". *)
Theorem query_names_entries
    (requests_get : string → response) (nameset : gset string) (w w' : world)
    (c c' : gmap string string) :
  loaded w = Some c →
  query_names requests_get nameset w = Return c' w' →
  dom c' ⊆ dom c ∪ nameset
  ∧ (∀ n v, c' !! n = Some v → c !! n = Some v ∨ v = "F" ∨ v = "M")
  ∧ (cache_ok c → cache_ok c').
Proof.
  intros Hload Hrun.
  pose proof (query_names_return_entries _ _ _ _ _ _ Hload Hrun) as Hent.
  split_and!.
  - intros n [v Hv]%elem_of_dom. apply elem_of_union.
    destruct (Hent n v Hv) as [Hc|[[Hn _]%misses_of_elem _]]; [left|by right].
    apply elem_of_dom. eauto.
  - intros n v Hv. destruct (Hent n v Hv) as [?|[_ ?]]; auto.
  - by apply (query_names_return_ok _ _ _ _ _ _ Hload Hrun).
Qed.

Lemma query_names_entries_witness :
  dom (<["ana" := "F"]> example_cache) ⊆ dom example_cache ∪ {["ana"; "smith"]}
  ∧ (∀ n v, <["ana" := "F"]> example_cache !! n = Some v →
       example_cache !! n = Some v ∨ v = "F" ∨ v = "M")
  ∧ (cache_ok example_cache → cache_ok (<["ana" := "F"]> example_cache)).
Proof.
  apply (query_names_entries example_service {["ana"; "smith"]} keyed_world
           (World (Holds (<["ana" := "F"]> example_cache)) (Some "secret")
              ["Querying for ana"; "Querying for smith"])).
  - reflexivity.
  - vm_compute. reflexivity.
Defined.

(** X13. For a credential without braces: a lookup whose response is not
    [ok] leaves its name without an entry and does not stop the run: when
    the other names get proper answers the run returns, and the names
    answered with accuracy 60 or more have their entries. *)
Theorem failed_lookup_is_skipped
    (requests_get : string → response) (nameset : gset string) (w : world)
    (api_key : string) (c : gmap string string) (n : string) :
  braceless api_key →
  GENDER_API_KEY w = Some api_key →
  loaded w = Some c →
  (∀ m, m ∈ nameset → c !! m = None → answers requests_get api_key m) →
  n ∈ nameset →
  c !! n = None →
  ok (requests_get (gender_api_query api_key n)) = false →
  ∃ c' w',
    query_names requests_get nameset w = Return c' w'
    ∧ c' !! n = None
    ∧ (∀ m a g,
         m ∈ nameset → c !! m = None →
         requests_get (gender_api_query api_key m)
         = Response true (Some (Body (Some a) (Some g))) →
         (60 ≤ a)%Z → c' !! m = Some (entry g)).
Proof.
  intros _ Hkey Hload Hans Hn Hnone Hfail.
  destruct (query_names_run _ _ _ _ _ Hkey Hload Hans)
    as (c' & w' & Hrun & _ & _ & Hf & Hin).
  exists c', w'. split_and!; [done| |].
  - apply Hf; [by apply misses_of_elem|done].
  - intros m a g Hm Hmnone Hq Ha.
    rewrite (Hin m a g); [|by apply misses_of_elem|done].
    apply Z.leb_le in Ha. by rewrite Ha.
Qed.

Lemma failed_lookup_is_skipped_witness :
  ∃ c' w',
    query_names example_service {["ana"; "zoe"]} keyed_world = Return c' w'
    ∧ c' !! "zoe" = None
    ∧ (∀ m a g,
         m ∈ ({["ana"; "zoe"]} : gset string) → example_cache !! m = None →
         example_service (gender_api_query "secret" m)
         = Response true (Some (Body (Some a) (Some g))) →
         (60 ≤ a)%Z → c' !! m = Some (entry g)).
Proof.
  apply (failed_lookup_is_skipped example_service {["ana"; "zoe"]} keyed_world
           "secret" example_cache "zoe").
  - reflexivity.
  - reflexivity.
  - reflexivity.
  - intros m [->%elem_of_singleton| ->%elem_of_singleton]%elem_of_union _.
    + intros _. vm_compute. eauto.
    + intros Hok. vm_compute in Hok. discriminate.
  - by apply elem_of_union_r, elem_of_singleton.
  - reflexivity.
  - reflexivity.
Defined.

(** ** What [report_gender] counts *)

Lemma increment_get k retval retval' k' :
  increment k retval = Some retval' →
  Dict.get k' retval'
  = if decide (k' = k) then (λ n, n + 1)%Z <$> Dict.get k' retval
    else Dict.get k' retval.
Proof.
  revert retval'. induction retval as [|[k0 n] retval IH]; intros retval';
    simpl; [done|].
  destruct (decide (k = k0)) as [->|Hne].
  - intros [= <-]. simpl. by destruct (decide (k' = k0)).
  - destruct (increment k retval) as [r|]; [|done]. intros [= <-]. simpl.
    destruct (decide (k' = k0)) as [->|Hne'].
    + by rewrite decide_False.
    + by apply IH.
Qed.

Lemma increment_in k retval :
  is_Some (increment k retval) → k ∈ Dict.keys retval.
Proof.
  unfold Dict.keys. induction retval as [|[k0 n] retval IH]; simpl.
  - by intros [? ?].
  - destruct (decide (k = k0)) as [->|Hne]; csimpl; [by left|].
    destruct (increment k retval) as [r|]; [|by intros [? ?]].
    intros _. right. apply IH. eauto.
Qed.

Lemma count_of_cons k r values :
  count_of k (r :: values)
  = (if decide (category_of r = k) then 1 else 0) + count_of k values.
Proof.
  unfold count_of. rewrite filter_cons. by destruct (decide _).
Qed.

Lemma tally_get values retval retval' k :
  tally values retval = inr retval' →
  Dict.get k retval'
  = (λ n, n + Z.of_nat (count_of k values))%Z <$> Dict.get k retval.
Proof.
  revert retval. induction values as [|r values IH]; intros retval; simpl.
  - intros [= <-]. destruct (Dict.get k retval); simpl; [|done].
    f_equal. unfold count_of. simpl. lia.
  - destruct (increment (category_of r) retval) as [r1|] eqn:Hinc; [|done].
    intros Hrun. rewrite (IH _ Hrun), (increment_get _ _ _ k Hinc).
    rewrite count_of_cons. destruct (decide (k = category_of r)) as [->|Hne].
    + rewrite decide_True by done.
      destruct (Dict.get _ retval); simpl; [|done]. f_equal. lia.
    + rewrite decide_False by done. by destruct (Dict.get k retval).
Qed.

Lemma get_zero (l : list string) k :
  k ∈ l → Dict.get k ((λ c, (c, 0%Z)) <$> l) = Some 0%Z.
Proof.
  induction l as [|k0 l IH]; csimpl; [by intros ?%elem_of_nil|].
  destruct (decide (k = k0)); [done|].
  intros [?|?]%elem_of_cons; [done|]. by apply IH.
Qed.

(** X14. In the report [report_gender] returns, the count under each of the
    nine categories is the number of records whose two labels spell that
    category. *)
Theorem report_counts_per_category
    (data : list (string * resolved)) (report : list (string * Z)) (k : string) :
  report_gender data = inr report →
  k ∈ categories →
  Dict.get k report = Some (Z.of_nat (count_of k (Dict.values data))).
Proof.
  unfold report_gender. intros Hrun Hk.
  rewrite (tally_get _ _ _ k Hrun), (get_zero _ _ Hk). simpl. by f_equal.
Qed.

Lemma report_counts_per_category_witness :
  Dict.get "FF"
    [("MM", 0); ("MF", 0); ("MNone", 0); ("FM", 0); ("FF", 2);
     ("FNone", 0); ("NoneM", 0); ("NoneF", 0); ("NoneNone", 1)]%Z
  = Some
      (Z.of_nat
         (count_of "FF"
            (Dict.values
               [("a", (("ann", Some "F"), ("eve", Some "F")));
                ("b", (("", None), ("", None)));
                ("c", (("lee", Some "F"), ("lee", Some "F")))]))).
Proof.
  apply (report_counts_per_category
           [("a", (("ann", Some "F"), ("eve", Some "F")));
            ("b", (("", None), ("", None)));
            ("c", (("lee", Some "F"), ("lee", Some "F")))]).
  - reflexivity.
  - by apply (bool_decide_unpack _).
Defined.

Lemma tally_outcome values :
  ∀ retval,
  match tally values retval with
  | inr _ => Forall (λ r, category_of r ∈ Dict.keys retval) values
  | inl e =>
      ∃ pre r post,
        values = pre ++ (r :: post)
        ∧ Forall (λ r, category_of r ∈ Dict.keys retval) pre
        ∧ (category_of r ∉ Dict.keys retval)
        ∧ e = KeyError (category_of r)
  end.
Proof.
  induction values as [|r values IH]; intros retval; simpl; [constructor|].
  destruct (increment (category_of r) retval) as [r1|] eqn:Hinc.
  - assert (Hin : category_of r ∈ Dict.keys retval)
      by (apply increment_in; eauto).
    apply increment_Some in Hinc as [Hkeys _].
    specialize (IH r1). rewrite Hkeys in IH.
    destruct (tally values r1) as [e|r'].
    + destruct IH as (pre & r0 & post & -> & Hpre & Hout & ->).
      exists (r :: pre), r0, post. split_and!; [done| |done|done].
      by constructor.
    + by constructor.
  - exists [], r, values. split_and!; [done|constructor| |done].
    intros Hin%increment_is_Some. rewrite Hinc in Hin. by destruct Hin.
Qed.

(** X15. [report_gender] returns exactly when every record's two labels
    spell one of the nine categories; otherwise it raises [KeyError] with
    the key of the first record that does not. *)
Theorem report_gender_key_error (data : list (string * resolved)) :
  match report_gender data with
  | inr _ => Forall (λ r, category_of r ∈ categories) (Dict.values data)
  | inl e =>
      ∃ pre r post,
        Dict.values data = pre ++ (r :: post)
        ∧ Forall (λ r, category_of r ∈ categories) pre
        ∧ (category_of r ∉ categories)
        ∧ e = KeyError (category_of r)
  end.
Proof.
  unfold report_gender.
  pose proof (tally_outcome (Dict.values data) ((λ c, (c, 0%Z)) <$> categories))
    as Hout.
  assert (Hkeys : Dict.keys ((λ c, (c, 0%Z)) <$> categories) = categories)
    by reflexivity.
  by rewrite Hkeys in Hout.
Qed.

Example report_gender_other_label :
  report_gender [("a", (("ann", Some "F"), ("eve", Some "F")));
                 ("b", (("kim", Some "X"), ("", None)))]
  = inl (KeyError "XNone").
Proof. reflexivity. Qed.

(** ** The lists of the frame of resolved records *)

Lemma fold_append_row data ls :
  fold_left append_row data ls
  = {| BIB_KEY := BIB_KEY ls ++ data.*1;
       FA_NAME := FA_NAME ls ++ ((λ e : string * resolved, e.2.1.1) <$> data);
       FA_GENDER := FA_GENDER ls ++ ((λ e : string * resolved, e.2.1.2) <$> data);
       LA_NAME := LA_NAME ls ++ ((λ e : string * resolved, e.2.2.1) <$> data);
       LA_GENDER := LA_GENDER ls ++ ((λ e : string * resolved, e.2.2.2) <$> data) |}.
Proof.
  revert ls. induction data as [|e data IH]; intros ls; csimpl.
  - destruct ls. simpl. by rewrite !app_nil_r.
  - rewrite IH. unfold append_row. simpl. by rewrite <-!app_assoc.
Qed.

(** X16. The five lists [create_author_gender_df] hands to [pd.DataFrame]
    have one item per entry of the mapping, in the mapping's order: all
    five have the length of the mapping, as the constructor requires, the
    first lists the citation keys, and position by position the lists
    give the entries back, the labels [None] included. *)
Theorem columns_round_trip (data : list (string * resolved)) :
  let ls := create_author_gender_df_lists data in
  BIB_KEY ls = Dict.keys data
  ∧ length (BIB_KEY ls) = length data
  ∧ length (FA_NAME ls) = length data
  ∧ length (FA_GENDER ls) = length data
  ∧ length (LA_NAME ls) = length data
  ∧ length (LA_GENDER ls) = length data
  ∧ rows ls = data.
Proof.
  unfold create_author_gender_df_lists. rewrite fold_append_row. simpl.
  split_and!; [done|by rewrite length_fmap..|].
  unfold rows. simpl.
  induction data as [|[k [[f lf] [l ll]]] data IH]; csimpl; [done|].
  by rewrite IH.
Qed.

(** ** What [main] does *)

(** [main] on a cache file that loads: the first pass, the lookup when
    names are missed, the second pass, then the report. *)
Lemma main_passes requests_get bibstr w c :
  loaded w = Some c →
  main requests_get bibstr w
  = let first_pass := find_gender_loop c (records bibstr) in
    if decide (first_pass.2 = ∅) then finish first_pass w
    else match query_names requests_get first_pass.2 w with
         | Return c' w1 => finish (find_gender_loop c' (records bibstr)) w1
         | Raise e w1 => Raise e w1
         end.
Proof.
  intros Hload. unfold main. unfold bind at 1.
  rewrite (find_gender_run bibstr None w c) by done. cbv zeta.
  unfold bind at 1.
  destruct (decide ((find_gender_loop c (records bibstr)).2 = ∅)).
  - by unfold ret at 1.
  - unfold bind at 1.
    destruct (query_names _ _ w) as [c' w1|e w1]; [|done].
    by rewrite (find_gender_run bibstr (Some c') w1 c').
Qed.

Lemma report_gender_returns data :
  Forall labels_ok (Dict.values data) → ∃ report, report_gender data = inr report.
Proof.
  intros Hok. apply tally_returns. eapply Forall_impl; [exact Hok|].
  intros r Hr. by apply category_of_ok.
Qed.

(** The end of [main] on the result of a pass over a cache of "M" and "F". *)
Lemma finish_pass c recs w :
  cache_ok c →
  ∃ report,
    report_gender (find_gender_loop c recs).1 = inr report
    ∧ total report = Z.of_nat (length (find_gender_loop c recs).1)
    ∧ finish (find_gender_loop c recs) w
      = Return
          (Reports (find_gender_loop c recs).2 (find_gender_loop c recs).1
             report (compute_gender_stats report))
          (World (names_cache w) (GENDER_API_KEY w)
             (stdout w ++ [repr_report report])).
Proof.
  intros Hc.
  destruct (report_gender_returns _ (find_gender_loop_labels_ok c recs Hc))
    as [report Hrep].
  exists report. split; [done|]. split; [by apply report_gender_inr|].
  unfold finish. by rewrite Hrep.
Qed.

(** X17. When the cache file holds an "M" or "F" entry for every first and
    last name of the text, [main] returns after one pass: nothing is
    missed, every author has a label, the cache file is as it was, and the
    only output is the printed report. *)
Theorem main_all_known
    (requests_get : string → response) (bibstr : string) (w : world)
    (c : gmap string string) :
  loaded w = Some c →
  cache_ok c →
  (∀ bid authors, (bid, authors) ∈ records bibstr →
     is_Some (c !! first_name authors) ∧ is_Some (c !! last_name authors)) →
  ∃ out,
    main requests_get bibstr w
    = Return out
        (World (names_cache w) (GENDER_API_KEY w)
           (stdout w ++ [repr_report (gender_report out)]))
    ∧ missed_query out = ∅
    ∧ resolved_query out = (find_gender_loop c (records bibstr)).1
    ∧ (∀ bid r, (bid, r) ∈ resolved_query out → is_Some r.1.2 ∧ is_Some r.2.2).
Proof.
  intros Hload Hc Hknown.
  assert (Hnone : (find_gender_loop c (records bibstr)).2 = ∅).
  { apply elem_of_equiv_empty_L. intros n.
    intros (Hn & bid & authors & Hrec & Hor)%find_gender_loop_missed.
    destruct (Hknown bid authors Hrec) as [[v Hf] [v' Hl]].
    destruct Hor as [-> | ->]; congruence. }
  rewrite (main_passes _ _ _ _ Hload). cbv zeta.
  rewrite decide_True by done.
  destruct (finish_pass c (records bibstr) w Hc) as (report & _ & _ & ->).
  exists (Reports (find_gender_loop c (records bibstr)).2
            (find_gender_loop c (records bibstr)).1 report
            (compute_gender_stats report)).
  split; [reflexivity|]. simpl. split_and!; [done|done|].
  intros bid r. rewrite find_gender_loop_data.
  intros [[]%elem_of_nil|(authors & Hrec & ->)]%assign_all_elem.
  apply (Hknown bid authors Hrec).
Qed.

Lemma main_all_known_witness :
  ∃ out,
    main no_service single_author_bib (World (Holds {["ann" := "F"]}) None [])
    = Return out
        (World (names_cache (World (Holds {["ann" := "F"]}) None []))
           (GENDER_API_KEY (World (Holds {["ann" := "F"]}) None []))
           (stdout (World (Holds {["ann" := "F"]}) None [])
            ++ [repr_report (gender_report out)]))
    ∧ missed_query out = ∅
    ∧ resolved_query out
      = (find_gender_loop {["ann" := "F"]} (records single_author_bib)).1
    ∧ (∀ bid r, (bid, r) ∈ resolved_query out → is_Some r.1.2 ∧ is_Some r.2.2).
Proof.
  apply (main_all_known no_service single_author_bib
           (World (Holds {["ann" := "F"]}) None []) {["ann" := "F"]}).
  - reflexivity.
  - intros n v [<- <-]%lookup_singleton_Some. by right.
  - intros bid authors Hin.
    assert (Hrec : records single_author_bib = [("lee2019", "Lee, Ann")])
      by (vm_compute; reflexivity).
    rewrite Hrec in Hin. apply list_elem_of_singleton in Hin as [= -> ->].
    split; vm_compute; eauto.
Defined.

(** X18. On a text without records, e.g. the empty text, [main] returns
    empty results: no record, nothing missed, all nine counts 0 and every
    ratio NaN; it asks nothing and leaves the cache file as it is. *)
Theorem main_without_records
    (requests_get : string → response) (bibstr : string) (w : world)
    (c : gmap string string) :
  loaded w = Some c →
  records bibstr = [] →
  main requests_get bibstr w
  = Return
      (Reports ∅ [] empty_report (compute_gender_stats empty_report))
      (World (names_cache w) (GENDER_API_KEY w)
         (stdout w ++ [repr_report empty_report]))
  ∧ Forall (λ kc : string * Z, kc.2 = 0%Z) empty_report
  ∧ Forall (λ row : string * float, PrimFloat.is_nan row.2 = true)
      (compute_gender_stats empty_report).
Proof.
  intros Hload Hrecs. rewrite (main_passes _ _ _ _ Hload), Hrecs.
  split; [done|]. split; apply (bool_decide_unpack _); by vm_compute.
Qed.

Lemma main_without_records_witness :
  main no_service "" (World Absent None [])
  = Return
      (Reports ∅ [] empty_report (compute_gender_stats empty_report))
      (World (names_cache (World Absent None []))
         (GENDER_API_KEY (World Absent None []))
         (stdout (World Absent None []) ++ [repr_report empty_report]))
  ∧ Forall (λ kc : string * Z, kc.2 = 0%Z) empty_report
  ∧ Forall (λ row : string * float, PrimFloat.is_nan row.2 = true)
      (compute_gender_stats empty_report).
Proof.
  apply (main_without_records no_service "" (World Absent None []) ∅);
    reflexivity.
Defined.

Lemma find_gender_loop_entry c recs bid r :
  (bid, r) ∈ (find_gender_loop c recs).1 →
  r.1.2 = c !! r.1.1 ∧ r.2.2 = c !! r.2.1.
Proof.
  rewrite find_gender_loop_data.
  by intros [[]%elem_of_nil|(authors & _ & ->)]%assign_all_elem.
Qed.

(** X19. With a credential without braces, a cache file of "M" and "F"
    entries and proper answers from the service, [main] returns. The records are resolved
    against a cache that extends the loaded one by "F" and "M" entries: a
    name missed in the first pass and answered with accuracy 60 or more has
    its entry, every label is what that cache holds for the name, the
    names reported as missed are the ones it still lacks, and the counts
    of the report add up to the number of entries. *)
Theorem main_two_pass
    (requests_get : string → response) (bibstr : string) (w : world)
    (api_key : string) (c : gmap string string) :
  braceless api_key →
  loaded w = Some c →
  cache_ok c →
  GENDER_API_KEY w = Some api_key →
  (∀ n, n ∈ (find_gender_loop c (records bibstr)).2 →
     answers requests_get api_key n) →
  ∃ out w' c',
    main requests_get bibstr w = Return out w'
    ∧ c ⊆ c'
    ∧ cache_ok c'
    ∧ resolved_query out = (find_gender_loop c' (records bibstr)).1
    ∧ (∀ bid r, (bid, r) ∈ resolved_query out →
         r.1.2 = c' !! r.1.1 ∧ r.2.2 = c' !! r.2.1)
    ∧ (∀ n, n ∈ missed_query out → c' !! n = None)
    ∧ (∀ n a g,
         n ∈ (find_gender_loop c (records bibstr)).2 →
         requests_get (gender_api_query api_key n)
         = Response true (Some (Body (Some a) (Some g))) →
         (60 ≤ a)%Z → c' !! n = Some (entry g))
    ∧ total (gender_report out) = Z.of_nat (length (resolved_query out)).
Proof.
  intros _ Hload Hc Hkey Hans. rewrite (main_passes _ _ _ _ Hload). cbv zeta.
  destruct (decide ((find_gender_loop c (records bibstr)).2 = ∅)) as [Hnone|Hsome].
  - destruct (finish_pass c (records bibstr) w Hc) as (report & _ & Htot & ->).
    eexists _, _, c. split; [reflexivity|]. simpl.
    split_and!; [done|done|done|apply find_gender_loop_entry| | |done].
    + rewrite Hnone. by intros n ?%elem_of_empty.
    + rewrite Hnone. by intros n a g ?%elem_of_empty.
  - destruct (query_names_run requests_get
                (find_gender_loop c (records bibstr)).2 w api_key c Hkey Hload)
      as (c' & w1 & Hrun & _ & Hout & _ & Hin).
    { intros n Hn _. by apply Hans. }
    rewrite Hrun.
    assert (Hc' : cache_ok c')
      by (by apply (query_names_return_ok _ _ _ _ _ _ Hload Hrun)).
    destruct (finish_pass c' (records bibstr) w1 Hc') as (report & _ & Htot & ->).
    eexists _, _, c'. split; [reflexivity|]. simpl.
    split_and!; [|done|done|apply find_gender_loop_entry| | |done].
    + apply map_subseteq_spec. intros n v Hv. rewrite Hout; [done|].
      rewrite misses_of_elem, Hv. by intros [_ ?].
    + by intros n [? _]%find_gender_loop_missed.
    + intros n a g Hn Hq Ha. rewrite (Hin n a g); [| |done].
      * apply Z.leb_le in Ha. by rewrite Ha.
      * apply misses_of_elem. split; [done|].
        by apply find_gender_loop_missed in Hn as [? _].
Qed.

Lemma given_names_service_answers (n : string) :
  answers given_names_service "secret" n.
Proof.
  unfold answers, answer, given_names_service.
  destruct (decide _); [intros _; eexists _, _; split; [done|]; eauto|].
  destruct (decide _); [intros _; eexists _, _; split; [done|]; eauto|].
  done.
Qed.

Lemma main_two_pass_witness :
  ∃ out w' c',
    main given_names_service given_names_bib (World Absent (Some "secret") [])
    = Return out w'
    ∧ ∅ ⊆ c'
    ∧ cache_ok c'
    ∧ resolved_query out = (find_gender_loop c' (records given_names_bib)).1
    ∧ (∀ bid r, (bid, r) ∈ resolved_query out →
         r.1.2 = c' !! r.1.1 ∧ r.2.2 = c' !! r.2.1)
    ∧ (∀ n, n ∈ missed_query out → c' !! n = None)
    ∧ (∀ n a g,
         n ∈ (find_gender_loop ∅ (records given_names_bib)).2 →
         given_names_service (gender_api_query "secret" n)
         = Response true (Some (Body (Some a) (Some g))) →
         (60 ≤ a)%Z → c' !! n = Some (entry g))
    ∧ total (gender_report out) = Z.of_nat (length (resolved_query out)).
Proof.
  apply (main_two_pass given_names_service given_names_bib
           (World Absent (Some "secret") []) "secret" ∅).
  - reflexivity.
  - reflexivity.
  - intros n v Hv. by rewrite lookup_empty in Hv.
  - reflexivity.
  - intros n _. apply given_names_service_answers.
Defined.

(** The run of the witness: "john" and "anna" are missed in the first
    pass, answered and stored, and the second pass labels them. *)
Example main_two_pass_given_names :
  (find_gender_loop ∅ (records given_names_bib)).2 = {[""; "anna"; "john"]}
  ∧ main given_names_service given_names_bib (World Absent (Some "secret") [])
    = Return
        {| missed_query := {[""]};
           resolved_query :=
             [("doe2020", (("john", Some "M"), ("anna", Some "F")));
              ("smith2021", (("", None), ("", None)))];
           gender_report :=
             [("MM", 0); ("MF", 1); ("MNone", 0); ("FM", 0); ("FF", 0);
              ("FNone", 0); ("NoneM", 0); ("NoneF", 0); ("NoneNone", 1)]%Z;
           stats_report :=
             [("MM", 0); ("MF", 0.5); ("MNone", 0); ("FM", 0); ("FF", 0);
              ("FNone", 0); ("NoneM", 0); ("NoneF", 0); ("NoneNone", 0.5)]%float |}
        (World (Holds given_names_cache) (Some "secret")
           ["Querying for "; "Querying for anna"; "Querying for john";
            "{'MM': 0, 'MF': 1, 'MNone': 0, 'FM': 0, 'FF': 0, 'FNone': 0, 'NoneM': 0, 'NoneF': 0, 'NoneNone': 1}"]).
Proof. split; vm_compute; reflexivity. Qed.

Lemma finish_file pass w :
  names_cache (world_of (finish pass w)) = names_cache w.
Proof. unfold finish. by destruct (report_gender pass.1). Qed.

(** X20. Without a credential [main] never consults the service: its
    outcome is the same whatever the service would answer, and the cache
    file is left as it was, also when the run raises. *)
Theorem main_without_credential
    (requests_get requests_get' : string → response) (bibstr : string)
    (w : world) :
  GENDER_API_KEY w = None →
  main requests_get bibstr w = main requests_get' bibstr w
  ∧ names_cache (world_of (main requests_get bibstr w)) = names_cache w.
Proof.
  intros Hkey. destruct (loaded w) as [c|] eqn:Hload.
  - rewrite !(main_passes _ _ _ _ Hload). cbv zeta.
    destruct (decide _); [split; [done|apply finish_file]|].
    rewrite !(query_names_loaded _ _ _ _ Hload), Hkey.
    destruct (misses_of _ c); (split; [done|]); by rewrite finish_file.
  - unfold loaded in Hload. destruct w as [[| |c0] key out]; done.
Qed.

Lemma main_without_credential_witness :
  main no_service example_bib example_world
  = main example_service example_bib example_world
  ∧ names_cache (world_of (main no_service example_bib example_world))
    = names_cache example_world.
Proof.
  apply (main_without_credential no_service example_service example_bib
           example_world).
  reflexivity.
Defined.
